(** * Flipper expansion protocol: the frame codec of [expansion_protocol.h]

    A shallow embedding of the header's four functions

      - [expansion_frame_get_encoded_size]
      - [expansion_frame_get_remaining_size]
      - [expansion_frame_decode]
      - [expansion_frame_encode]

    together with the properties of the codec: sizes, completeness,
    the receive loop and its requests, the send path and the round trip
    through an in-memory buffer.

    Conventions.
      - An [ExpansionFrame] is the packed C object seen as the bytes it
        occupies ([#pragma pack(push, 1)]): offset 0 is [header.type],
        offset 1 onwards is the [content] union.
      - [size_t] values are integers in [Z]; the width of [size_t] is the
        section variable [size_bits] and conversions to [size_t] are written
        out with [size_t].
      - A callback is a function of the memory it is handed and of its
        context object; it returns the memory and context it leaves behind
        and the count it reports. *)

From Stdlib Require Import ZArith List Lia Bool.
From Stdlib Require Import Strings.Byte.
Import ListNotations.
Local Open Scope Z_scope.

(** ** Constants and enumerations *)

Definition EXPANSION_MAX_DATA_SIZE : Z := 64.

Definition ExpansionFrameTypeHeartbeat : Z := 1.
Definition ExpansionFrameTypeStatus : Z := 2.
Definition ExpansionFrameTypeBaudRate : Z := 3.
Definition ExpansionFrameTypeControl : Z := 4.
Definition ExpansionFrameTypeData : Z := 5.
Definition ExpansionFrameTypeReserved : Z := 6.

Definition ExpansionFrameErrorNone : Z := 0.
Definition ExpansionFrameErrorUnknown : Z := 1.
Definition ExpansionFrameErrorBaudRate : Z := 2.

Definition ExpansionFrameControlCommandStartRpc : Z := 0.
Definition ExpansionFrameControlCommandStopRpc : Z := 1.

(** ** Object sizes under [#pragma pack(push, 1)] *)

Definition sizeof_ExpansionFrameHeader : Z := 1.
Definition sizeof_ExpansionFrameStatus : Z := 1.
Definition sizeof_ExpansionFrameBaudRate : Z := 4.
Definition sizeof_ExpansionFrameControl : Z := 1.
(** [sizeof(frame->content.data.size)], the length field of a data frame. *)
Definition sizeof_ExpansionFrameData_size : Z := 1.
Definition sizeof_ExpansionFrameData : Z :=
  sizeof_ExpansionFrameData_size + EXPANSION_MAX_DATA_SIZE.
(** The union is as large as its largest member, the data contents. *)
Definition sizeof_ExpansionFrame : Z :=
  sizeof_ExpansionFrameHeader + sizeof_ExpansionFrameData.

(** ** Frames as packed bytes *)

Definition ExpansionFrame : Type := list byte.

Definition uint8 (b : byte) : Z := Z.of_N (Byte.to_N b).

(** Reading the [uint8_t] at a byte offset of the frame object.  Offsets
    beyond the object do not occur for a caller-supplied [ExpansionFrame];
    the embedding reads zero there. *)
Definition load8 (frame : ExpansionFrame) (offset : nat) : Z :=
  uint8 (nth offset frame x00).

(** [frame->header.type] *)
Definition header_type (frame : ExpansionFrame) : Z := load8 frame 0.
(** [frame->content.status.error] *)
Definition content_status_error (frame : ExpansionFrame) : Z := load8 frame 1.
(** [frame->content.control.command] *)
Definition content_control_command (frame : ExpansionFrame) : Z :=
  load8 frame 1.
(** [frame->content.data.size] *)
Definition content_data_size (frame : ExpansionFrame) : Z := load8 frame 1.
(** [frame->content.baud_rate.baud], four bytes, least significant first
    (the byte order of the wire format and of the Cortex-M targets). *)
Definition content_baud_rate_baud (frame : ExpansionFrame) : Z :=
  Z.lor (load8 frame 1)
    (Z.lor (Z.shiftl (load8 frame 2) 8)
       (Z.lor (Z.shiftl (load8 frame 3) 16) (Z.shiftl (load8 frame 4) 24))).
(** [frame->content.data.bytes], up to [content.data.size] bytes. *)
Definition content_data_bytes (frame : ExpansionFrame) : list byte :=
  firstn (Z.to_nat (content_data_size frame)) (skipn 2 frame).

(** The tags the [switch] statements have a [case] for. *)
Definition known_frame_type (type : Z) : bool :=
  (type =? ExpansionFrameTypeHeartbeat)
  || (type =? ExpansionFrameTypeStatus)
  || (type =? ExpansionFrameTypeBaudRate)
  || (type =? ExpansionFrameTypeControl)
  || (type =? ExpansionFrameTypeData).

(** The five variants of the tagged union, as values. *)
Inductive ExpansionFrameValue : Type :=
| FrameHeartbeat
| FrameStatus (error : Z)
| FrameBaudRate (baud : Z)
| FrameControl (command : Z)
| FrameData (size : Z) (bytes : list byte).

(** The variant a frame object holds, with the fields that are meaningful
    for its tag; [None] when the tag selects no member of the union. *)
Definition frame_value (frame : ExpansionFrame) : option ExpansionFrameValue :=
  let type := header_type frame in
  if type =? ExpansionFrameTypeHeartbeat then Some FrameHeartbeat
  else if type =? ExpansionFrameTypeStatus then
    Some (FrameStatus (content_status_error frame))
  else if type =? ExpansionFrameTypeBaudRate then
    Some (FrameBaudRate (content_baud_rate_baud frame))
  else if type =? ExpansionFrameTypeControl then
    Some (FrameControl (content_control_command frame))
  else if type =? ExpansionFrameTypeData then
    Some (FrameData (content_data_size frame) (content_data_bytes frame))
  else None.

(** A frame object a caller may encode: the full object, a known tag and,
    for a data frame, a length within the [bytes] array. *)
Definition well_formed_frame (frame : ExpansionFrame) : Prop :=
  Z.of_nat (length frame) = sizeof_ExpansionFrame
  /\ known_frame_type (header_type frame) = true
  /\ (header_type frame = ExpansionFrameTypeData ->
      content_data_size frame <= EXPANSION_MAX_DATA_SIZE).

(** ** Callbacks *)

(** What a receive callback leaves behind: the frame memory after its
    writes, its context object, and the count it returns. *)
Record ReceiveResult (C : Type) : Type := mkReceiveResult {
  rr_frame : ExpansionFrame;
  rr_context : C;
  rr_count : Z
}.
Arguments mkReceiveResult {C} _ _ _.
Arguments rr_frame {C} _.
Arguments rr_context {C} _.
Arguments rr_count {C} _.

(** The receive function type: [data] is the frame memory together with
    the offset the pointer has in it, [data_size] the capacity, then the
    context object. *)
Definition ExpansionFrameReceiveCallback (C : Type) : Type :=
  ExpansionFrame -> Z -> Z -> C -> ReceiveResult C.

(** The send function type: the memory [data] points to is read only, so
    the callback returns its count and its context. *)
Definition ExpansionFrameSendCallback (C : Type) : Type :=
  ExpansionFrame -> Z -> C -> Z * C.

(** One invocation of the receive callback, as the driver made it: the
    frame memory at that moment, the offset of [data] in the frame and
    the capacity [data_size] it was given. *)
Record ReceiveCall : Type := mkReceiveCall {
  rc_frame : ExpansionFrame;
  rc_offset : Z;
  rc_capacity : Z
}.

(** A run of [expansion_frame_decode]: the boolean it returned ([None]
    while the loop is still running), the frame and context it has reached,
    and the invocations of [receive] it made, in order. *)
Record DecodeResult (C : Type) : Type := mkDecodeResult {
  dr_return : option bool;
  dr_frame : ExpansionFrame;
  dr_context : C;
  dr_calls : list ReceiveCall
}.
Arguments mkDecodeResult {C} _ _ _ _.
Arguments dr_return {C} _.
Arguments dr_frame {C} _.
Arguments dr_context {C} _.
Arguments dr_calls {C} _.

Definition log_receive {C : Type} (call : ReceiveCall) (r : DecodeResult C)
  : DecodeResult C :=
  mkDecodeResult (dr_return r) (dr_frame r) (dr_context r)
    (call :: dr_calls r).

(** One invocation of the send callback: the memory [data] points to and
    the [data_size] it was given. *)
Record SendCall : Type := mkSendCall {
  sc_data : ExpansionFrame;
  sc_data_size : Z
}.

(** Outcome of [expansion_frame_encode]: the returned boolean, the context
    left behind and the invocations of [send] in order. *)
Record EncodeResult (C : Type) : Type := mkEncodeResult {
  er_ok : bool;
  er_context : C;
  er_calls : list SendCall
}.
Arguments mkEncodeResult {C} _ _ _.
Arguments er_ok {C} _.
Arguments er_context {C} _.
Arguments er_calls {C} _.

(** ** An in-memory byte buffer as byte sink and byte source *)

(** Writing [bytes] into the frame memory from [offset] on. *)
Definition store_bytes (frame : ExpansionFrame) (offset : nat)
    (bytes : list byte) : ExpansionFrame :=
  firstn offset frame ++ bytes ++ skipn (offset + length bytes) frame.

(** The sink appends the [data_size] bytes at [data] to the buffer and
    reports all of them sent. *)
Definition buffer_send : ExpansionFrameSendCallback (list byte) :=
  fun data data_size buffer =>
    (data_size, buffer ++ firstn (Z.to_nat data_size) data).

(** The source hands out the next bytes of the buffer, at most [chunk]
    per invocation and never more than the capacity, and reports how many
    it wrote; an empty buffer gives 0. *)
Definition buffer_receive (chunk : Z)
  : ExpansionFrameReceiveCallback (list byte) :=
  fun frame offset data_size buffer =>
    let n := Z.to_nat (Z.min chunk data_size) in
    let bytes := firstn n buffer in
    mkReceiveResult (store_bytes frame (Z.to_nat offset) bytes)
      (skipn n buffer) (Z.of_nat (length bytes)).

(** A source with nothing to deliver. *)
Definition stalled_receive : ExpansionFrameReceiveCallback unit :=
  fun frame _ _ context => mkReceiveResult frame context 0.

(** A sink that reports one byte fewer than it was given. *)
Definition short_send : ExpansionFrameSendCallback unit :=
  fun _ data_size context => (data_size - 1, context).

(** ** The sizes and requirements in the words of the protocol *)

Inductive ExpansionFrameVariant : Type :=
| Heartbeat | Status | BaudRate | Control | Data.

Definition frame_variant (frame : ExpansionFrame)
  : option ExpansionFrameVariant :=
  match header_type frame with
  | 1 => Some Heartbeat
  | 2 => Some Status
  | 3 => Some BaudRate
  | 4 => Some Control
  | 5 => Some Data
  | _ => None
  end.

(** Header size plus the content size of the variant; a data frame counts
    its length field and the declared length; 0 for any other tag. *)
Definition encoded_size_spec (frame : ExpansionFrame) : Z :=
  match frame_variant frame with
  | Some Heartbeat => 1
  | Some Status => 2
  | Some BaudRate => 5
  | Some Control => 2
  | Some Data => 2 + content_data_size frame
  | None => 0
  end.

(** The content requirement of a variant once the header is in: fixed for
    four of them; for a data frame the length field alone until it has
    been received, then the length field and the declared length. *)
Definition content_requirement (variant : ExpansionFrameVariant)
    (frame : ExpansionFrame) (content_received : Z) : Z :=
  match variant with
  | Heartbeat => 0
  | Status => 1
  | BaudRate => 4
  | Control => 1
  | Data => if content_received <? 1 then 1 else 1 + content_data_size frame
  end.

(** A request of the receive loop stays inside the frame object. *)
Definition request_in_frame (call : ReceiveCall) : Prop :=
  0 <= rc_offset call
  /\ rc_offset call + rc_capacity call <= sizeof_ExpansionFrame.

(** ** Sample frames and streams *)

Definition zero_frame : ExpansionFrame := repeat x00 66.

Definition heartbeat_frame : ExpansionFrame := x01 :: repeat x00 65.
Definition status_frame : ExpansionFrame := x02 :: x01 :: repeat x00 64.
(** 115200 baud, 0x0001C200. *)
Definition baud_rate_frame : ExpansionFrame :=
  x03 :: x00 :: xc2 :: x01 :: x00 :: repeat x00 61.
Definition control_frame : ExpansionFrame := x04 :: x01 :: repeat x00 64.
(** A data frame declaring 10 bytes. *)
Definition data_frame_10 : ExpansionFrame :=
  x05 :: x0a :: repeat xaa 10 ++ repeat x00 54.
(** A data frame of the maximum length. *)
Definition data_frame_64 : ExpansionFrame := x05 :: x40 :: repeat x55 64.
(** A frame object whose tag is the reserved value 6. *)
Definition reserved_frame : ExpansionFrame := x06 :: repeat x00 65.

(** A stream that announces a data frame of 200 bytes. *)
Definition oversized_stream : list byte := [x05; xc8].

(** ** Shapes of a run of the receive loop *)


(** ** Proof automation *)

(** Case analysis on every integer comparison the goal tests. *)
Ltac split_tests :=
  repeat match goal with
    | |- context [?a >? ?b] => rewrite (Z.gtb_ltb a b)
    | |- context [?a =? ?b] => destruct (Z.eqb_spec a b)
    | |- context [?a <? ?b] => destruct (Z.ltb_spec a b)
    end.

Ltac unfold_sizes :=
  unfold sizeof_ExpansionFrame, sizeof_ExpansionFrameData,
    sizeof_ExpansionFrameData_size, sizeof_ExpansionFrameControl,
    sizeof_ExpansionFrameBaudRate, sizeof_ExpansionFrameStatus,
    sizeof_ExpansionFrameHeader, EXPANSION_MAX_DATA_SIZE,
    ExpansionFrameTypeHeartbeat, ExpansionFrameTypeStatus,
    ExpansionFrameTypeBaudRate, ExpansionFrameTypeControl,
    ExpansionFrameTypeData in *.

(** ** The codec *)

Section Codec.

(** Width of [size_t] in bits.  The C standard guarantees 16 or more. *)
Variable size_bits : Z.

Definition SIZE_MAX : Z := 2 ^ size_bits - 1.

(** Conversion of an integer to [size_t]. *)
Definition size_t (z : Z) : Z := z mod 2 ^ size_bits.

Definition expansion_frame_get_encoded_size (frame : ExpansionFrame) : Z :=
  let type := header_type frame in
  if type =? ExpansionFrameTypeHeartbeat then
    sizeof_ExpansionFrameHeader
  else if type =? ExpansionFrameTypeStatus then
    size_t (sizeof_ExpansionFrameHeader + sizeof_ExpansionFrameStatus)
  else if type =? ExpansionFrameTypeBaudRate then
    size_t (sizeof_ExpansionFrameHeader + sizeof_ExpansionFrameBaudRate)
  else if type =? ExpansionFrameTypeControl then
    size_t (sizeof_ExpansionFrameHeader + sizeof_ExpansionFrameControl)
  else if type =? ExpansionFrameTypeData then
    size_t (size_t (sizeof_ExpansionFrameHeader
                    + sizeof_ExpansionFrameData_size)
            + content_data_size frame)
  else 0.

(** The [switch] of [expansion_frame_get_remaining_size]: the value it
    assigns to [content_size], or [None] on the [default] branch. *)
Definition remaining_content_size (frame : ExpansionFrame)
    (received_content_size : Z) : option Z :=
  let type := header_type frame in
  if type =? ExpansionFrameTypeHeartbeat then Some 0
  else if type =? ExpansionFrameTypeStatus then
    Some sizeof_ExpansionFrameStatus
  else if type =? ExpansionFrameTypeBaudRate then
    Some sizeof_ExpansionFrameBaudRate
  else if type =? ExpansionFrameTypeControl then
    Some sizeof_ExpansionFrameControl
  else if type =? ExpansionFrameTypeData then
    if received_content_size <? sizeof_ExpansionFrameData_size then
      Some sizeof_ExpansionFrameData_size
    else
      Some (size_t (sizeof_ExpansionFrameData_size + content_data_size frame))
  else None.

Definition expansion_frame_get_remaining_size (frame : ExpansionFrame)
    (received_size : Z) : Z :=
  if received_size <? sizeof_ExpansionFrameHeader then
    sizeof_ExpansionFrameHeader
  else
    let received_content_size := received_size - sizeof_ExpansionFrameHeader in
    match remaining_content_size frame received_content_size with
    | None => SIZE_MAX
    | Some content_size =>
        if content_size >? received_content_size
        then content_size - received_content_size
        else 0
    end.

Section Driver.

Context {C : Type}.

(** The [while(true)] loop of [expansion_frame_decode], from the state
    ([frame], [context], [total_size]) at the top of an iteration.
    Each iteration uses one unit of [fuel]; when the fuel is spent
    the run is reported as it stands, with no return value. *)
Fixpoint decode_loop (fuel : nat) (receive : ExpansionFrameReceiveCallback C)
    (frame : ExpansionFrame) (context : C) (total_size : Z)
  : DecodeResult C :=
  match fuel with
  | O => mkDecodeResult None frame context []
  | S fuel' =>
      let remaining_size :=
        expansion_frame_get_remaining_size frame total_size in
      if (remaining_size =? 0) || (remaining_size =? SIZE_MAX) then
        mkDecodeResult (Some (remaining_size =? 0)) frame context []
      else
        let call := mkReceiveCall frame total_size remaining_size in
        let r := receive frame total_size remaining_size context in
        let received_size := size_t (rr_count r) in
        if received_size =? 0 then
          mkDecodeResult (Some (remaining_size =? 0))
            (rr_frame r) (rr_context r) [call]
        else
          log_receive call
            (decode_loop fuel' receive (rr_frame r) (rr_context r)
               (size_t (total_size + received_size)))
  end.

Definition expansion_frame_decode (fuel : nat) (frame : ExpansionFrame)
    (receive : ExpansionFrameReceiveCallback C) (context : C)
  : DecodeResult C :=
  decode_loop fuel receive frame context 0.

Definition expansion_frame_encode (frame : ExpansionFrame)
    (send : ExpansionFrameSendCallback C) (context : C)
  : EncodeResult C :=
  let encoded_size := expansion_frame_get_encoded_size frame in
  if negb (encoded_size =? 0) then
    let '(sent, context') := send frame encoded_size context in
    mkEncodeResult (size_t sent =? encoded_size) context'
      [mkSendCall frame encoded_size]
  else
    mkEncodeResult false context [].

End Driver.

(** A source that breaks the contract of the callback: it writes nothing,
    reports one byte for the header and [SIZE_MAX] bytes afterwards. *)
Definition over_reporting_receive : ExpansionFrameReceiveCallback unit :=
  fun frame offset _ context =>
    mkReceiveResult frame context (if offset =? 0 then 1 else SIZE_MAX).

(** The contract of the receive callback as the loop needs it: asked for
    a capacity, the callback reports no more than that capacity. *)
Definition receive_within_capacity {C : Type}
    (receive : ExpansionFrameReceiveCallback C) : Prop :=
  forall data offset data_size context,
    0 <= data_size ->
    size_t (rr_count (receive data offset data_size context)) <= data_size.


(** * Properties *)

Hypothesis size_bits_min : 16 <= size_bits.

(** ** Bytes, tags and [size_t] *)

Lemma uint8_range (b : byte) : 0 <= uint8 b <= 255.
Proof.
  unfold uint8. pose proof (Byte.to_N_bounded b) as Hb. lia.
Qed.

Lemma load8_range (frame : ExpansionFrame) (offset : nat) :
  0 <= load8 frame offset <= 255.
Proof. apply uint8_range. Qed.

Lemma frame_variant_cascade (frame : ExpansionFrame) :
  frame_variant frame =
  let type := header_type frame in
  if type =? ExpansionFrameTypeHeartbeat then Some Heartbeat
  else if type =? ExpansionFrameTypeStatus then Some Status
  else if type =? ExpansionFrameTypeBaudRate then Some BaudRate
  else if type =? ExpansionFrameTypeControl then Some Control
  else if type =? ExpansionFrameTypeData then Some Data
  else None.
Proof.
  unfold frame_variant. cbv zeta.
  destruct (header_type frame) as [|p|p]; try reflexivity.
  destruct p as [[[q|q|]|[q|q|]|]|[[q|q|]|[q|q|]|]|]; reflexivity.
Qed.

Lemma known_frame_type_cases (type : Z) :
  known_frame_type type = true <->
  type = ExpansionFrameTypeHeartbeat \/ type = ExpansionFrameTypeStatus
  \/ type = ExpansionFrameTypeBaudRate \/ type = ExpansionFrameTypeControl
  \/ type = ExpansionFrameTypeData.
Proof.
  unfold known_frame_type. rewrite !orb_true_iff, !Z.eqb_eq. tauto.
Qed.

Lemma unknown_frame_type_cases (type : Z) :
  known_frame_type type = false <->
  type <> ExpansionFrameTypeHeartbeat /\ type <> ExpansionFrameTypeStatus
  /\ type <> ExpansionFrameTypeBaudRate /\ type <> ExpansionFrameTypeControl
  /\ type <> ExpansionFrameTypeData.
Proof.
  unfold known_frame_type. rewrite !orb_false_iff, !Z.eqb_neq. tauto.
Qed.

Lemma size_t_modulus : 65536 <= 2 ^ size_bits.
Proof.
  change 65536 with (2 ^ 16). apply Z.pow_le_mono_r; lia.
Qed.

Lemma size_t_small (z : Z) : 0 <= z < 65536 -> size_t z = z.
Proof.
  intros Hz. unfold size_t. pose proof size_t_modulus.
  apply Z.mod_small. lia.
Qed.

Lemma size_t_range (z : Z) : 0 <= size_t z <= SIZE_MAX.
Proof.
  unfold size_t, SIZE_MAX. pose proof size_t_modulus.
  pose proof (Z.mod_pos_bound z (2 ^ size_bits)). lia.
Qed.

Lemma SIZE_MAX_large : 65535 <= SIZE_MAX.
Proof. unfold SIZE_MAX. pose proof size_t_modulus. lia. Qed.

(** The sums of the two size functions fit [size_t]. *)
Lemma data_content_size_exact (frame : ExpansionFrame) :
  size_t (sizeof_ExpansionFrameData_size + content_data_size frame)
  = 1 + content_data_size frame.
Proof.
  pose proof (load8_range frame 1) as Hs. unfold content_data_size.
  unfold_sizes. apply size_t_small. lia.
Qed.

(** ** The size oracle *)

(** The encoded size in closed form, without the conversions. *)
Lemma encoded_size_cascade (frame : ExpansionFrame) :
  expansion_frame_get_encoded_size frame =
  let type := header_type frame in
  if type =? 1 then 1
  else if type =? 2 then 2
  else if type =? 3 then 5
  else if type =? 4 then 2
  else if type =? 5 then 2 + content_data_size frame
  else 0.
Proof.
  pose proof (load8_range frame 1) as Hs.
  unfold expansion_frame_get_encoded_size, content_data_size. unfold_sizes.
  cbv zeta. rewrite !(size_t_small (1 + _)) by lia.
  rewrite (size_t_small (2 + _)) by lia. reflexivity.
Qed.

(** C4: the encoded size is the header size plus the fixed content size
    for Heartbeat (1), Status (2), BaudRate (5) and Control (2); it is
    2 + declared length for Data; it is 0 for every other tag. *)
Theorem encoded_size_by_variant (frame : ExpansionFrame) :
  expansion_frame_get_encoded_size frame = encoded_size_spec frame.
Proof.
  rewrite encoded_size_cascade. unfold encoded_size_spec.
  rewrite frame_variant_cascade. unfold_sizes. cbv zeta.
  split_tests; reflexivity.
Qed.

(** ** The completeness evaluator *)

(** The remaining size in closed form, for a header that is in. *)
Lemma remaining_size_cascade (frame : ExpansionFrame) (received_size : Z) :
  1 <= received_size ->
  expansion_frame_get_remaining_size frame received_size =
  let type := header_type frame in
  let received_content_size := received_size - 1 in
  if type =? 1 then 0
  else if type =? 2 then Z.max (1 - received_content_size) 0
  else if type =? 3 then Z.max (4 - received_content_size) 0
  else if type =? 4 then Z.max (1 - received_content_size) 0
  else if type =? 5 then
    if received_content_size <? 1 then 1
    else Z.max (1 + content_data_size frame - received_content_size) 0
  else SIZE_MAX.
Proof.
  intros Hr. pose proof (load8_range frame 1) as Hs.
  unfold expansion_frame_get_remaining_size, remaining_content_size.
  rewrite data_content_size_exact. unfold content_data_size. unfold_sizes.
  cbv zeta. split_tests; try lia; reflexivity.
Qed.

Lemma remaining_size_header (frame : ExpansionFrame) (received_size : Z) :
  received_size < 1 ->
  expansion_frame_get_remaining_size frame received_size = 1.
Proof.
  intros Hr. unfold expansion_frame_get_remaining_size. unfold_sizes.
  split_tests; [reflexivity | lia].
Qed.

(** C3: with less than the header received the remaining size is the
    header size; otherwise, for a known tag, it is
    max (content requirement - content received, 0), the requirement
    being 0, 1, 4, 1 for Heartbeat, Status, BaudRate, Control and, for
    Data, 1 until the length field is in and 1 + declared length after. *)
Theorem remaining_size_by_variant (frame : ExpansionFrame)
    (received_size : Z) :
  (received_size < sizeof_ExpansionFrameHeader ->
   expansion_frame_get_remaining_size frame received_size
   = sizeof_ExpansionFrameHeader)
  /\ (sizeof_ExpansionFrameHeader <= received_size ->
      forall variant, frame_variant frame = Some variant ->
      let content_received := received_size - sizeof_ExpansionFrameHeader in
      expansion_frame_get_remaining_size frame received_size
      = Z.max (content_requirement variant frame content_received
               - content_received) 0).
Proof.
  split.
  - apply remaining_size_header.
  - unfold sizeof_ExpansionFrameHeader. intros Hr variant Hv. cbv zeta.
    rewrite remaining_size_cascade by exact Hr.
    rewrite frame_variant_cascade in Hv. unfold_sizes. cbv zeta in Hv |- *.
    revert Hv. split_tests; intros Hv; inversion Hv; subst variant;
      unfold content_requirement; split_tests; lia.
Qed.

(** C5 (amended): for a frame with a known tag and [m <= n], the
    remaining size at [n] is at most the remaining size at [m] exactly
    when neither of two cases applies: a baud rate frame with the header
    not yet in at [m] and [n] from 1 to 3, or a data frame with the length
    field not yet in at [m] ([m < 2]) and [n] from 2 to the declared
    length.  In particular it holds once the header and, for a data
    frame, the length field are in at [m]. *)
Theorem remaining_size_monotone (frame : ExpansionFrame) (m n : Z) :
  known_frame_type (header_type frame) = true ->
  m <= n ->
  (expansion_frame_get_remaining_size frame n
   <= expansion_frame_get_remaining_size frame m
   <-> ~ (header_type frame = ExpansionFrameTypeBaudRate
          /\ m < 1 /\ 1 <= n <= 3)
       /\ ~ (header_type frame = ExpansionFrameTypeData
             /\ m < 2 /\ 2 <= n <= content_data_size frame)).
Proof.
  intros Hk Hmn. apply known_frame_type_cases in Hk.
  pose proof (load8_range frame 1) as Hs. fold (content_data_size frame) in Hs.
  destruct (Z.lt_ge_cases m 1) as [Hm | Hm].
  - rewrite (remaining_size_header frame m) by exact Hm.
    destruct (Z.lt_ge_cases n 1) as [Hn | Hn].
    + rewrite remaining_size_header by exact Hn. unfold_sizes. lia.
    + rewrite remaining_size_cascade by lia. unfold_sizes. cbv zeta.
      split_tests; lia.
  - rewrite !remaining_size_cascade by lia. unfold_sizes. cbv zeta.
    split_tests; lia.
Qed.

(** C6: for a frame with one of the five known tags, the remaining size
    at a received size equal to the encoded size of the frame is 0. *)
Theorem remaining_size_zero_at_encoded_size (frame : ExpansionFrame) :
  known_frame_type (header_type frame) = true ->
  expansion_frame_get_remaining_size frame
    (expansion_frame_get_encoded_size frame) = 0.
Proof.
  intros Hk. apply known_frame_type_cases in Hk.
  pose proof (load8_range frame 1) as Hs. fold (content_data_size frame) in Hs.
  assert (He : 1 <= expansion_frame_get_encoded_size frame).
  { rewrite encoded_size_cascade. unfold_sizes. cbv zeta. split_tests; lia. }
  rewrite remaining_size_cascade by exact He.
  rewrite encoded_size_cascade. unfold_sizes. cbv zeta. split_tests; lia.
Qed.

(** ** The receive loop *)

(** A remaining size of 0 is only reported with the header in and a
    known tag. *)
Lemma remaining_size_zero_known (frame : ExpansionFrame)
    (received_size : Z) :
  expansion_frame_get_remaining_size frame received_size = 0 ->
  1 <= received_size /\ known_frame_type (header_type frame) = true.
Proof.
  intros H0. pose proof SIZE_MAX_large as Hmax.
  destruct (Z.lt_ge_cases received_size 1) as [Hr | Hr].
  - rewrite remaining_size_header in H0 by exact Hr. discriminate.
  - split; [exact Hr |].
    rewrite remaining_size_cascade in H0 by exact Hr.
    apply known_frame_type_cases. unfold_sizes. cbv zeta in H0.
    revert H0. split_tests; intros H0; lia.
Qed.

Lemma remaining_size_unknown (frame : ExpansionFrame) (received_size : Z) :
  known_frame_type (header_type frame) = false ->
  1 <= received_size ->
  expansion_frame_get_remaining_size frame received_size = SIZE_MAX.
Proof.
  intros Hk Hr. apply unknown_frame_type_cases in Hk.
  rewrite remaining_size_cascade by exact Hr. unfold_sizes. cbv zeta.
  split_tests; solve [reflexivity | lia].
Qed.

(** One iteration of the loop, by the three ways it can go. *)
Lemma decode_loop_break {C : Type} (fuel : nat)
    (receive : ExpansionFrameReceiveCallback C) (frame : ExpansionFrame)
    (context : C) (total_size : Z) :
  let remaining_size :=
    expansion_frame_get_remaining_size frame total_size in
  remaining_size = 0 \/ remaining_size = SIZE_MAX ->
  decode_loop (S fuel) receive frame context total_size
  = mkDecodeResult (Some (remaining_size =? 0)) frame context [].
Proof.
  cbv zeta. intros Hb. cbn [decode_loop].
  replace (_ || _) with true; [reflexivity |].
  symmetry. apply orb_true_iff. rewrite !Z.eqb_eq. exact Hb.
Qed.

Lemma decode_loop_receive {C : Type} (fuel : nat)
    (receive : ExpansionFrameReceiveCallback C) (frame : ExpansionFrame)
    (context : C) (total_size : Z) :
  let remaining_size :=
    expansion_frame_get_remaining_size frame total_size in
  let call := mkReceiveCall frame total_size remaining_size in
  let r := receive frame total_size remaining_size context in
  remaining_size <> 0 -> remaining_size <> SIZE_MAX ->
  decode_loop (S fuel) receive frame context total_size
  = if size_t (rr_count r) =? 0 then
      mkDecodeResult (Some false) (rr_frame r) (rr_context r) [call]
    else
      log_receive call
        (decode_loop fuel receive (rr_frame r) (rr_context r)
           (size_t (total_size + size_t (rr_count r)))).
Proof.
  cbv zeta. intros H0 Hmax. cbn [decode_loop].
  apply Z.eqb_neq in H0, Hmax. rewrite H0, Hmax. reflexivity.
Qed.

(** C8: with a receive callback that always reports 0 bytes, decode
    returns false after exactly one invocation of the callback. *)
Theorem decode_stalled_source {C : Type}
    (receive : ExpansionFrameReceiveCallback C) (frame : ExpansionFrame)
    (context : C) (fuel : nat) :
  (forall data offset data_size c,
      rr_count (receive data offset data_size c) = 0) ->
  (1 <= fuel)%nat ->
  let r := expansion_frame_decode fuel frame receive context in
  dr_return r = Some false
  /\ dr_calls r = [mkReceiveCall frame 0 sizeof_ExpansionFrameHeader].
Proof.
  intros Hzero Hfuel. cbv zeta. unfold expansion_frame_decode.
  destruct fuel as [| fuel]; [lia |].
  pose proof SIZE_MAX_large as Hmax.
  rewrite decode_loop_receive;
    rewrite remaining_size_header by lia; try lia.
  rewrite Hzero. unfold size_t at 1. rewrite Zmod_0_l.
  rewrite Z.eqb_refl. split; reflexivity.
Qed.

(** C7: once the tag byte of the frame is in and is none of 1..5, the
    remaining size is [SIZE_MAX]; and when the first invocation of the
    receive callback leaves such a tag in the frame, decode returns false
    with that invocation as its only one. *)
Theorem unknown_tag_aborts (frame : ExpansionFrame) :
  known_frame_type (header_type frame) = false ->
  (forall received_size, 1 <= received_size ->
     expansion_frame_get_remaining_size frame received_size = SIZE_MAX)
  /\ (forall (C : Type) (receive : ExpansionFrameReceiveCallback C)
             (frame0 : ExpansionFrame) (context : C) (fuel : nat),
        rr_frame (receive frame0 0 sizeof_ExpansionFrameHeader context)
        = frame ->
        (2 <= fuel)%nat ->
        let r := expansion_frame_decode fuel frame0 receive context in
        dr_return r = Some false
        /\ dr_calls r = [mkReceiveCall frame0 0 sizeof_ExpansionFrameHeader]).
Proof.
  intros Hk. split.
  - intros received_size Hr. apply remaining_size_unknown; assumption.
  - intros C receive frame0 context fuel Hrecv Hfuel. cbv zeta.
    unfold expansion_frame_decode.
    destruct fuel as [| [| fuel]]; try lia.
    pose proof SIZE_MAX_large as Hmax.
    rewrite decode_loop_receive;
      rewrite remaining_size_header by lia; try lia.
    unfold sizeof_ExpansionFrameHeader in Hrecv.
    destruct (Z.eqb_spec (size_t (rr_count (receive frame0 0 1 context))) 0)
      as [Hn | Hn].
    + split; reflexivity.
    + pose proof (size_t_range (rr_count (receive frame0 0 1 context))) as Hc.
      rewrite Hrecv.
      rewrite decode_loop_break.
      * rewrite remaining_size_unknown; try assumption.
        -- unfold log_receive; cbn. split; [| reflexivity].
           destruct (Z.eqb_spec SIZE_MAX 0); [lia | reflexivity].
        -- rewrite Z.add_0_l.
           pose proof (size_t_range
             (size_t (rr_count (receive frame0 0 1 context)))) as Hc2.
           unfold size_t at 1. rewrite Z.mod_small; [lia |].
           unfold SIZE_MAX in Hc. lia.
      * right. apply remaining_size_unknown; [assumption |].
        rewrite Z.add_0_l. unfold size_t at 1.
        rewrite Z.mod_small; [lia |]. unfold SIZE_MAX in Hc. lia.
Qed.

(** C10: when decode returns true, the tag byte of the frame it leaves
    is one of the five known frame types. *)
Theorem decode_true_known_tag {C : Type}
    (receive : ExpansionFrameReceiveCallback C) (fuel : nat)
    (frame : ExpansionFrame) (context : C) :
  let r := expansion_frame_decode fuel frame receive context in
  dr_return r = Some true ->
  known_frame_type (header_type (dr_frame r)) = true.
Proof.
  cbv zeta. unfold expansion_frame_decode. generalize 0 as total_size.
  revert frame context.
  induction fuel as [| fuel IH]; intros frame context total_size Hret.
  - discriminate Hret.
  - cbn [decode_loop] in Hret |- *.
    destruct (Z.eqb_spec
                (expansion_frame_get_remaining_size frame total_size) 0)
      as [H0 | H0].
    + cbn in Hret |- *. apply remaining_size_zero_known in H0. tauto.
    + destruct (expansion_frame_get_remaining_size frame total_size
                =? SIZE_MAX); cbn [orb] in Hret |- *.
      * discriminate Hret.
      * destruct (size_t (rr_count _) =? 0).
        -- discriminate Hret.
        -- apply (IH _ _ _ Hret).
Qed.

(** What the loop asks of the callback, from the state it is in. *)
Lemma decode_request_bound (frame : ExpansionFrame) (total_size : Z) :
  let remaining_size :=
    expansion_frame_get_remaining_size frame total_size in
  0 <= total_size ->
  remaining_size <> 0 -> remaining_size <> SIZE_MAX ->
  total_size + remaining_size <= sizeof_ExpansionFrame
  \/ (header_type frame = ExpansionFrameTypeData
      /\ 2 <= total_size
      /\ EXPANSION_MAX_DATA_SIZE < content_data_size frame
      /\ total_size + remaining_size = 2 + content_data_size frame).
Proof.
  cbv zeta. intros Ht. pose proof (load8_range frame 1) as Hs.
  fold (content_data_size frame) in Hs.
  destruct (Z.lt_ge_cases total_size 1) as [Hr | Hr].
  - rewrite remaining_size_header by exact Hr. unfold_sizes. lia.
  - rewrite remaining_size_cascade by exact Hr. unfold_sizes. cbv zeta.
    split_tests; lia.
Qed.

(** C2 (amended): every invocation of the receive callback made by
    decode, whatever the callback does and however long the loop runs,
    starts inside the frame and has offset + capacity at most the size
    of the frame object (66), unless the frame at that moment holds the
    data tag and a received length byte above 64; the request then ends
    at 2 + that length byte. *)
Theorem decode_requests {C : Type}
    (receive : ExpansionFrameReceiveCallback C) (fuel : nat)
    (frame : ExpansionFrame) (context : C) :
  Forall
    (fun call =>
       request_in_frame call
       \/ (header_type (rc_frame call) = ExpansionFrameTypeData
           /\ 2 <= rc_offset call
           /\ EXPANSION_MAX_DATA_SIZE < content_data_size (rc_frame call)
           /\ rc_offset call + rc_capacity call
              = 2 + content_data_size (rc_frame call)))
    (dr_calls (expansion_frame_decode fuel frame receive context)).
Proof.
  unfold expansion_frame_decode.
  assert (Ht : 0 <= 0) by lia. revert Ht. generalize 0 at 2 3 as total_size.
  revert frame context.
  induction fuel as [| fuel IH]; intros frame context total_size Ht.
  - constructor.
  - cbn [decode_loop].
    destruct (Z.eqb_spec
                (expansion_frame_get_remaining_size frame total_size) 0)
      as [H0 | H0]; [constructor |].
    destruct (Z.eqb_spec
                (expansion_frame_get_remaining_size frame total_size)
                SIZE_MAX) as [Hm | Hm]; [constructor |].
    cbn [orb].
    pose proof (decode_request_bound frame total_size Ht H0 Hm) as Hreq.
    assert (Hcall :
      request_in_frame
        (mkReceiveCall frame total_size
           (expansion_frame_get_remaining_size frame total_size))
      \/ (header_type frame = ExpansionFrameTypeData
          /\ 2 <= total_size
          /\ EXPANSION_MAX_DATA_SIZE < content_data_size frame
          /\ total_size
             + expansion_frame_get_remaining_size frame total_size
             = 2 + content_data_size frame)).
    { unfold request_in_frame; cbn. tauto. }
    destruct (size_t (rr_count _) =? 0).
    + cbn. constructor; [exact Hcall | constructor].
    + cbn. constructor; [exact Hcall |].
      apply IH. apply size_t_range.
Qed.

(** ** The send path *)

(** C9: when the encoded size is 0, encode returns false and the send
    callback is not invoked; otherwise the callback is invoked exactly
    once, on the frame with the encoded size, and encode returns true
    exactly when the count the callback reports equals the encoded
    size. *)
Theorem encode_single_send {C : Type} (frame : ExpansionFrame)
    (send : ExpansionFrameSendCallback C) (context : C) :
  let encoded_size := expansion_frame_get_encoded_size frame in
  let r := expansion_frame_encode frame send context in
  (encoded_size = 0 ->
   er_ok r = false /\ er_calls r = [] /\ er_context r = context)
  /\ (encoded_size <> 0 ->
      er_calls r = [mkSendCall frame encoded_size]
      /\ er_context r = snd (send frame encoded_size context)
      /\ (er_ok r = true
          <-> size_t (fst (send frame encoded_size context))
              = encoded_size)).
Proof.
  cbv zeta. unfold expansion_frame_encode.
  destruct (Z.eqb_spec (expansion_frame_get_encoded_size frame) 0)
    as [H0 | H0]; cbn [negb].
  - split; [intros _; cbn; auto | intros Hn; contradiction].
  - split; [intros Hn; contradiction | intros _].
    destruct (send frame (expansion_frame_get_encoded_size frame) context)
      as [sent context']. cbn. rewrite Z.eqb_eq. tauto.
Qed.

(** ** The round trip through an in-memory buffer *)

Lemma store_bytes_length (frame : ExpansionFrame) (offset : nat)
    (bytes : list byte) :
  (offset + length bytes <= length frame)%nat ->
  length (store_bytes frame offset bytes) = length frame.
Proof.
  intros Hfit. unfold store_bytes.
  rewrite !length_app, length_firstn, length_skipn. lia.
Qed.

Lemma store_bytes_prefix (frame : ExpansionFrame) (offset : nat)
    (bytes : list byte) :
  (offset <= length frame)%nat ->
  firstn (offset + length bytes) (store_bytes frame offset bytes)
  = firstn offset frame ++ bytes.
Proof.
  intros Hoff. unfold store_bytes. rewrite app_assoc, firstn_app.
  assert (Hlen : length (firstn offset frame ++ bytes)
                 = (offset + length bytes)%nat).
  { rewrite length_app, length_firstn. lia. }
  rewrite Hlen, Nat.sub_diag, firstn_0, app_nil_r.
  apply firstn_all2. lia.
Qed.

Lemma firstn_extend {A : Type} (a n : nat) (l : list A) :
  firstn a l ++ firstn n (skipn a l) = firstn (a + n) l.
Proof.
  revert l. induction a as [| a IH]; intros l.
  - reflexivity.
  - destruct l as [| x l]; cbn.
    + now rewrite !firstn_nil.
    + f_equal. apply IH.
Qed.

Lemma load8_prefix (f g : ExpansionFrame) (n i : nat) :
  firstn n f = firstn n g -> (i < n)%nat -> load8 f i = load8 g i.
Proof.
  intros Hfg Hi. unfold load8. f_equal.
  assert (Hlt : (i <? n)%nat = true) by (apply Nat.ltb_lt; exact Hi).
  pose proof (nth_firstn n f i x00) as Hf.
  pose proof (nth_firstn n g i x00) as Hg.
  rewrite Hlt in Hf, Hg. rewrite <- Hf, <- Hg, Hfg. reflexivity.
Qed.

(** The remaining size reads the tag only with the header in, and the
    length field only with two bytes in. *)
Lemma remaining_size_agree (f g : ExpansionFrame) (received_size : Z) :
  (1 <= received_size -> header_type f = header_type g) ->
  (2 <= received_size -> content_data_size f = content_data_size g) ->
  expansion_frame_get_remaining_size f received_size
  = expansion_frame_get_remaining_size g received_size.
Proof.
  intros Ht Hs.
  destruct (Z.lt_ge_cases received_size 1) as [Hr | Hr].
  - now rewrite !remaining_size_header by exact Hr.
  - rewrite !remaining_size_cascade by exact Hr. cbv zeta.
    rewrite (Ht Hr).
    destruct (Z.lt_ge_cases received_size 2) as [Hr2 | Hr2].
    + split_tests; solve [reflexivity | lia].
    + now rewrite (Hs Hr2).
Qed.

(** Up to the encoded size, the loop asks for no more than the frame
    still lacks, and short of it for at least one byte. *)
Lemma remaining_size_progress (frame : ExpansionFrame) (received_size : Z) :
  known_frame_type (header_type frame) = true ->
  0 <= received_size <= expansion_frame_get_encoded_size frame ->
  0 <= expansion_frame_get_remaining_size frame received_size
    <= expansion_frame_get_encoded_size frame - received_size
  /\ (received_size < expansion_frame_get_encoded_size frame ->
      1 <= expansion_frame_get_remaining_size frame received_size).
Proof.
  intros Hk. apply known_frame_type_cases in Hk.
  pose proof (load8_range frame 1) as Hs. fold (content_data_size frame) in Hs.
  rewrite encoded_size_cascade. cbv zeta. intros Hr.
  destruct (Z.lt_ge_cases received_size 1) as [Hr1 | Hr1].
  - rewrite remaining_size_header by exact Hr1. revert Hr. unfold_sizes.
    split_tests; lia.
  - rewrite remaining_size_cascade by exact Hr1. revert Hr. unfold_sizes.
    cbv zeta. split_tests; lia.
Qed.

Lemma well_formed_encoded_size (frame : ExpansionFrame) :
  well_formed_frame frame ->
  1 <= expansion_frame_get_encoded_size frame <= sizeof_ExpansionFrame.
Proof.
  intros (_ & Hk & Hd). apply known_frame_type_cases in Hk.
  pose proof (load8_range frame 1) as Hs. fold (content_data_size frame) in Hs.
  rewrite encoded_size_cascade. revert Hd. unfold_sizes. cbv zeta.
  split_tests; lia.
Qed.

(** The fields of the variant lie within the encoded size. *)
Lemma frame_value_prefix (f g : ExpansionFrame) :
  known_frame_type (header_type g) = true ->
  firstn (Z.to_nat (expansion_frame_get_encoded_size g)) f
  = firstn (Z.to_nat (expansion_frame_get_encoded_size g)) g ->
  frame_value f = frame_value g.
Proof.
  intros Hk. apply known_frame_type_cases in Hk.
  pose proof (load8_range g 1) as Hs. fold (content_data_size g) in Hs.
  rewrite encoded_size_cascade. cbv zeta. intros Hpre.
  assert (Htag : header_type f = header_type g).
  { unfold header_type. apply (load8_prefix _ _ _ _ Hpre).
    revert Hpre. unfold_sizes. split_tests; lia. }
  unfold frame_value. cbv zeta. rewrite Htag.
  unfold content_status_error, content_control_command,
    content_baud_rate_baud, content_data_bytes, content_data_size in *.
  revert Hpre. unfold_sizes. split_tests; intros Hpre;
    try reflexivity; try lia.
  - rewrite (load8_prefix _ _ _ 1 Hpre) by lia. reflexivity.
  - rewrite (load8_prefix _ _ _ 1 Hpre), (load8_prefix _ _ _ 2 Hpre),
      (load8_prefix _ _ _ 3 Hpre), (load8_prefix _ _ _ 4 Hpre) by lia.
    reflexivity.
  - rewrite (load8_prefix _ _ _ 1 Hpre) by lia. reflexivity.
  - assert (Hsz : load8 f 1 = load8 g 1)
      by (apply (load8_prefix _ _ _ _ Hpre); lia).
    rewrite Hsz. f_equal. f_equal. rewrite !firstn_skipn_comm.
    replace (2 + Z.to_nat (load8 g 1))%nat
      with (Z.to_nat (2 + load8 g 1)) by lia.
    now rewrite Hpre.
Qed.

(** The receive loop reading an encoded frame from the buffer: from any
    state in which the first [total_size] bytes are in, enough fuel
    takes it to completion with the whole encoding in the frame. *)
Lemma decode_loop_buffer (chunk : Z) (frame : ExpansionFrame) :
  well_formed_frame frame -> 1 <= chunk ->
  forall (fuel : nat) (total_size : Z) (out : ExpansionFrame),
    let encoded := expansion_frame_get_encoded_size frame in
    0 <= total_size <= encoded ->
    length out = length frame ->
    firstn (Z.to_nat total_size) out = firstn (Z.to_nat total_size) frame ->
    encoded - total_size < Z.of_nat fuel ->
    let r := decode_loop fuel (buffer_receive chunk) out
               (skipn (Z.to_nat total_size) (firstn (Z.to_nat encoded) frame))
               total_size in
    dr_return r = Some true
    /\ firstn (Z.to_nat encoded) (dr_frame r)
       = firstn (Z.to_nat encoded) frame
    /\ dr_context r = [].
Proof.
  intros Hwf Hchunk. pose proof (well_formed_encoded_size frame Hwf) as Henc.
  destruct Hwf as (Hlen & Hk & _). pose proof SIZE_MAX_large as Hmax.
  unfold sizeof_ExpansionFrame, sizeof_ExpansionFrameData,
    sizeof_ExpansionFrameData_size, sizeof_ExpansionFrameHeader,
    EXPANSION_MAX_DATA_SIZE in Hlen, Henc.
  set (encoded := expansion_frame_get_encoded_size frame) in *.
  induction fuel as [| fuel IH]; intros total_size out;
    cbv zeta; intros Htot Hout Hpre Hfuel; [lia |].
  assert (Hagree :
    expansion_frame_get_remaining_size out total_size
    = expansion_frame_get_remaining_size frame total_size).
  { apply remaining_size_agree; intros Hr.
    - unfold header_type. apply (load8_prefix _ _ _ _ Hpre). lia.
    - unfold content_data_size. apply (load8_prefix _ _ _ _ Hpre). lia. }
  pose proof (remaining_size_progress frame total_size Hk) as Hprog.
  fold encoded in Hprog. specialize (Hprog Htot).
  destruct Hprog as [Hupper Hprog].
  destruct (Z.eq_dec total_size encoded) as [Hdone | Hmore].
  - (* the frame is complete *)
    assert (Hzero : expansion_frame_get_remaining_size frame total_size = 0)
      by lia.
    rewrite decode_loop_break; rewrite Hagree, Hzero.
    + cbn. subst total_size. repeat split; [exact Hpre |].
      apply skipn_all2. rewrite length_firstn. lia.
    + left; reflexivity.
  - (* one more invocation of the source *)
    specialize (Hprog ltac:(lia)).
    rewrite decode_loop_receive by (rewrite Hagree; lia).
    rewrite Hagree.
    set (remaining := expansion_frame_get_remaining_size frame total_size)
      in *.
    set (n := Z.to_nat (Z.min chunk remaining)).
    assert (Hn : (1 <= n)%nat /\ Z.of_nat n <= remaining) by lia.
    set (buffer := skipn (Z.to_nat total_size)
                     (firstn (Z.to_nat encoded) frame)).
    assert (Hbuf : firstn n buffer
                   = firstn n (skipn (Z.to_nat total_size) frame)).
    { unfold buffer. rewrite skipn_firstn_comm, firstn_firstn.
      f_equal. lia. }
    assert (Hbytes : length (firstn n buffer) = n).
    { rewrite Hbuf, length_firstn, length_skipn. lia. }
    unfold buffer_receive. fold n. fold buffer.
    cbn [rr_count rr_frame rr_context].
    rewrite Hbytes.
    rewrite (size_t_small (Z.of_nat n)) by lia.
    rewrite (size_t_small (total_size + Z.of_nat n)) by lia.
    destruct (Z.eqb_spec (Z.of_nat n) 0) as [Hz | _]; [lia |].
    unfold log_receive. cbn [dr_return dr_frame dr_context].
    replace (skipn n buffer)
      with (skipn (Z.to_nat (total_size + Z.of_nat n))
              (firstn (Z.to_nat encoded) frame)).
    + apply IH.
      * lia.
      * rewrite store_bytes_length; [exact Hout |]. rewrite Hbytes. lia.
      * replace (Z.to_nat (total_size + Z.of_nat n))
          with (Z.to_nat total_size + length (firstn n buffer))%nat
          by (rewrite Hbytes; lia).
        rewrite store_bytes_prefix by lia.
        rewrite Hbytes, Hpre, Hbuf. apply firstn_extend.
      * lia.
    + unfold buffer. rewrite skipn_skipn. f_equal. lia.
Qed.

(** C1: a well-formed frame of any of the five variants, encoded into
    an empty in-memory buffer and decoded from that buffer into any
    frame object, comes back with decode returning true, the same
    variant with the same fields, and the same encoded bytes. *)
Theorem encode_decode_round_trip (frame out : ExpansionFrame)
    (chunk : Z) (fuel : nat) :
  well_formed_frame frame ->
  Z.of_nat (length out) = sizeof_ExpansionFrame ->
  1 <= chunk ->
  (sizeof_ExpansionFrame < Z.of_nat fuel) ->
  let encoded := Z.to_nat (expansion_frame_get_encoded_size frame) in
  let e := expansion_frame_encode frame buffer_send [] in
  let r := expansion_frame_decode fuel out (buffer_receive chunk)
             (er_context e) in
  er_ok e = true
  /\ er_context e = firstn encoded frame
  /\ dr_return r = Some true
  /\ frame_value frame <> None
  /\ frame_value (dr_frame r) = frame_value frame
  /\ firstn encoded (dr_frame r) = firstn encoded frame.
Proof.
  intros Hwf Hout Hchunk Hfuel. cbv zeta.
  pose proof (well_formed_encoded_size frame Hwf) as Henc.
  pose proof Hwf as (Hlen & Hk & _).
  unfold expansion_frame_encode, buffer_send.
  destruct (Z.eqb_spec (expansion_frame_get_encoded_size frame) 0)
    as [H0 | _]; [lia |].
  cbn [negb er_ok er_context app].
  unfold sizeof_ExpansionFrame, sizeof_ExpansionFrameData,
    sizeof_ExpansionFrameData_size, sizeof_ExpansionFrameHeader,
    EXPANSION_MAX_DATA_SIZE in *.
  rewrite size_t_small by lia. rewrite Z.eqb_refl.
  destruct (decode_loop_buffer chunk frame Hwf Hchunk fuel 0 out)
    as (Hret & Hpre & _); try lia; try reflexivity.
  cbn [Z.to_nat skipn] in Hret, Hpre.
  unfold expansion_frame_decode.
  repeat split; try assumption.
  - apply known_frame_type_cases in Hk. unfold frame_value. cbv zeta.
    unfold_sizes. split_tests; solve [discriminate | lia].
  - apply frame_value_prefix; assumption.
Qed.

(** ** More on the two size functions *)

(** X2: the encoded size is 0 exactly for an unknown tag, and otherwise
    lies between 1 and 257. *)
Theorem encoded_size_zero_iff_unknown (frame : ExpansionFrame) :
  (expansion_frame_get_encoded_size frame = 0
   <-> known_frame_type (header_type frame) = false)
  /\ (known_frame_type (header_type frame) = true ->
      1 <= expansion_frame_get_encoded_size frame <= 257).
Proof.
  pose proof (load8_range frame 1) as Hs. fold (content_data_size frame) in Hs.
  rewrite encoded_size_cascade, unknown_frame_type_cases,
    known_frame_type_cases.
  unfold_sizes. cbv zeta. split_tests; lia.
Qed.

(** X3: the remaining size is 0 exactly when the tag is known and at
    least the encoded size of the frame has been received. *)
Theorem remaining_size_zero_iff_complete (frame : ExpansionFrame)
    (received_size : Z) :
  expansion_frame_get_remaining_size frame received_size = 0
  <-> known_frame_type (header_type frame) = true
      /\ expansion_frame_get_encoded_size frame <= received_size.
Proof.
  pose proof (load8_range frame 1) as Hs. fold (content_data_size frame) in Hs.
  pose proof SIZE_MAX_large as Hmax.
  rewrite encoded_size_cascade, known_frame_type_cases. cbv zeta.
  destruct (Z.lt_ge_cases received_size 1) as [Hr | Hr].
  - rewrite remaining_size_header by exact Hr. unfold_sizes.
    split_tests; lia.
  - rewrite remaining_size_cascade by exact Hr. unfold_sizes. cbv zeta.
    split_tests; lia.
Qed.

(** X4: the remaining size is [SIZE_MAX] exactly when the header is in
    and the tag is unknown; every other result is at most 255. *)
Theorem remaining_size_sentinel_iff_unknown (frame : ExpansionFrame)
    (received_size : Z) :
  (expansion_frame_get_remaining_size frame received_size = SIZE_MAX
   <-> 1 <= received_size /\ known_frame_type (header_type frame) = false)
  /\ (expansion_frame_get_remaining_size frame received_size <> SIZE_MAX ->
      0 <= expansion_frame_get_remaining_size frame received_size <= 255).
Proof.
  pose proof (load8_range frame 1) as Hs. fold (content_data_size frame) in Hs.
  pose proof SIZE_MAX_large as Hmax.
  rewrite unknown_frame_type_cases.
  destruct (Z.lt_ge_cases received_size 1) as [Hr | Hr].
  - rewrite remaining_size_header by exact Hr. lia.
  - rewrite remaining_size_cascade by exact Hr. unfold_sizes. cbv zeta.
    split_tests; lia.
Qed.

(** X5: for a known tag, once the header and, for a data frame, the
    length field are in, the received size and the remaining size add up
    to the encoded size, up to the encoded size. *)
Theorem remaining_size_reaches_encoded_size (frame : ExpansionFrame)
    (received_size : Z) :
  known_frame_type (header_type frame) = true ->
  1 <= received_size <= expansion_frame_get_encoded_size frame ->
  (header_type frame = ExpansionFrameTypeData -> 2 <= received_size) ->
  received_size + expansion_frame_get_remaining_size frame received_size
  = expansion_frame_get_encoded_size frame.
Proof.
  intros Hk. apply known_frame_type_cases in Hk.
  pose proof (load8_range frame 1) as Hs. fold (content_data_size frame) in Hs.
  rewrite encoded_size_cascade. cbv zeta. intros Hr Hd.
  rewrite remaining_size_cascade by lia. revert Hr Hd. unfold_sizes.
  cbv zeta. split_tests; lia.
Qed.

(** ** More on the send path *)

(** X6: whatever the send callback, an invocation made by encode passes
    between 1 and 257 bytes of the frame, and it stays within the frame
    object (66 bytes) exactly when the frame is not a data frame whose
    length byte is above 64. *)
Theorem encode_send_within_frame {C : Type} (frame : ExpansionFrame)
    (send : ExpansionFrameSendCallback C) (context : C) :
  Forall
    (fun call =>
       sc_data call = frame
       /\ 1 <= sc_data_size call <= 257
       /\ (sc_data_size call <= sizeof_ExpansionFrame
           <-> ~ (header_type frame = ExpansionFrameTypeData
                  /\ EXPANSION_MAX_DATA_SIZE < content_data_size frame)))
    (er_calls (expansion_frame_encode frame send context)).
Proof.
  pose proof (load8_range frame 1) as Hs. fold (content_data_size frame) in Hs.
  unfold expansion_frame_encode.
  destruct (Z.eqb_spec (expansion_frame_get_encoded_size frame) 0)
    as [H0 | H0]; cbn [negb]; [constructor |].
  destruct (send frame (expansion_frame_get_encoded_size frame) context)
    as [sent context']. cbn [er_calls].
  constructor; [| constructor]. cbn [sc_data sc_data_size].
  split; [reflexivity |]. revert H0. rewrite encoded_size_cascade.
  unfold_sizes. cbv zeta. split_tests; lia.
Qed.

(** ** More on the receive loop *)

Lemma remaining_size_request_range (frame : ExpansionFrame)
    (received_size : Z) :
  expansion_frame_get_remaining_size frame received_size <> 0 ->
  expansion_frame_get_remaining_size frame received_size <> SIZE_MAX ->
  1 <= expansion_frame_get_remaining_size frame received_size <= 255.
Proof.
  pose proof (load8_range frame 1) as Hs. fold (content_data_size frame) in Hs.
  destruct (Z.lt_ge_cases received_size 1) as [Hr | Hr].
  - rewrite remaining_size_header by exact Hr. lia.
  - rewrite remaining_size_cascade by exact Hr. unfold_sizes. cbv zeta.
    split_tests; lia.
Qed.

Lemma decode_loop_request_sizes {C : Type}
    (receive : ExpansionFrameReceiveCallback C) (fuel : nat) :
  forall (frame : ExpansionFrame) (context : C) (total_size : Z),
    0 <= total_size <= SIZE_MAX ->
    Forall
      (fun call =>
         rc_capacity call
         = expansion_frame_get_remaining_size (rc_frame call) (rc_offset call)
         /\ 1 <= rc_capacity call <= 255
         /\ 0 <= rc_offset call <= SIZE_MAX)
      (dr_calls (decode_loop fuel receive frame context total_size)).
Proof.
  induction fuel as [| fuel IH]; intros frame context total_size Ht.
  - constructor.
  - cbn [decode_loop].
    destruct (Z.eqb_spec
                (expansion_frame_get_remaining_size frame total_size) 0)
      as [H0 | H0]; [constructor |].
    destruct (Z.eqb_spec
                (expansion_frame_get_remaining_size frame total_size)
                SIZE_MAX) as [Hm | Hm]; [constructor |].
    cbn [orb].
    pose proof (remaining_size_request_range frame total_size H0 Hm) as Hreq.
    destruct (size_t (rr_count _) =? 0); cbn [dr_calls log_receive].
    + constructor; [cbn; auto | constructor].
    + constructor; [cbn; auto |]. apply IH. apply size_t_range.
Qed.

(** X7: whatever the receive callback and however long the loop runs,
    every invocation asks for the remaining size of the frame as it is at
    that moment, which is at least 1 byte and at most 255 bytes, at an
    offset that is a [size_t] value. *)
Theorem decode_request_sizes {C : Type}
    (receive : ExpansionFrameReceiveCallback C) (fuel : nat)
    (frame : ExpansionFrame) (context : C) :
  Forall
    (fun call =>
       rc_capacity call
       = expansion_frame_get_remaining_size (rc_frame call) (rc_offset call)
       /\ 1 <= rc_capacity call <= 255
       /\ 0 <= rc_offset call <= SIZE_MAX)
    (dr_calls (expansion_frame_decode fuel frame receive context)).
Proof.
  unfold expansion_frame_decode. apply decode_loop_request_sizes.
  pose proof SIZE_MAX_large. lia.
Qed.


(** Under the contract of the callback the count of received bytes does
    not wrap: it stays within 257. *)
Lemma decode_total_size_step {C : Type}
    (receive : ExpansionFrameReceiveCallback C) (frame : ExpansionFrame)
    (context : C) (total_size : Z) :
  receive_within_capacity receive ->
  0 <= total_size <= 257 ->
  let remaining_size := expansion_frame_get_remaining_size frame total_size in
  let received_size :=
    size_t (rr_count (receive frame total_size remaining_size context)) in
  remaining_size <> 0 -> remaining_size <> SIZE_MAX ->
  received_size <> 0 ->
  size_t (total_size + received_size) = total_size + received_size
  /\ total_size < total_size + received_size <= total_size + remaining_size
  /\ total_size + received_size <= 257.
Proof.
  intros Hcontract Ht. cbv zeta. intros H0 Hm Hn.
  pose proof (load8_range frame 1) as Hs. fold (content_data_size frame) in Hs.
  pose proof (decode_request_bound frame total_size (proj1 Ht) H0 Hm) as Hreq.
  unfold_sizes.
  set (remaining := expansion_frame_get_remaining_size frame total_size) in *.
  pose proof (remaining_size_request_range frame total_size H0 Hm) as Hcap.
  fold remaining in Hcap.
  pose proof (Hcontract frame total_size remaining context ltac:(lia))
    as Hcount.
  pose proof (size_t_range
                (rr_count (receive frame total_size remaining context)))
    as Hrange.
  rewrite size_t_small by lia. lia.
Qed.

Lemma decode_loop_returns {C : Type}
    (receive : ExpansionFrameReceiveCallback C) :
  receive_within_capacity receive ->
  forall (fuel : nat) (frame : ExpansionFrame) (context : C)
         (total_size : Z),
    0 <= total_size <= 257 ->
    258 - total_size < Z.of_nat fuel ->
    dr_return (decode_loop fuel receive frame context total_size) <> None.
Proof.
  intros Hcontract.
  induction fuel as [| fuel IH]; intros frame context total_size Ht Hfuel;
    [lia |].
  cbn [decode_loop].
  destruct (Z.eqb_spec
              (expansion_frame_get_remaining_size frame total_size) 0)
    as [H0 | H0]; [discriminate |].
  destruct (Z.eqb_spec
              (expansion_frame_get_remaining_size frame total_size)
              SIZE_MAX) as [Hm | Hm]; [discriminate |].
  cbn [orb].
  pose proof (decode_total_size_step receive frame context total_size
                Hcontract Ht H0 Hm) as Hstep. cbv zeta in Hstep.
  set (r := receive frame total_size
              (expansion_frame_get_remaining_size frame total_size)
              context) in *.
  destruct (Z.eqb_spec (size_t (rr_count r)) 0) as [Hz | Hz];
    [discriminate |].
  specialize (Hstep Hz). destruct Hstep as (Heq & Hlt & Hle).
  unfold log_receive. cbn [dr_return]. rewrite Heq.
  apply IH; lia.
Qed.

(** X1: a receive callback that never reports more than the capacity it
    was asked for makes decode return; 259 iterations of the loop
    suffice. *)
Theorem decode_returns {C : Type} (receive : ExpansionFrameReceiveCallback C)
    (fuel : nat) (frame : ExpansionFrame) (context : C) :
  receive_within_capacity receive ->
  (259 <= fuel)%nat ->
  dr_return (expansion_frame_decode fuel frame receive context) <> None.
Proof.
  intros Hcontract Hfuel. unfold expansion_frame_decode.
  apply decode_loop_returns; [exact Hcontract | lia | lia].
Qed.

(** The in-memory source keeps the contract. *)
Lemma buffer_receive_within_capacity (chunk : Z) :
  receive_within_capacity (buffer_receive chunk).
Proof.
  intros data offset data_size buffer Hcap. unfold buffer_receive.
  cbn [rr_count].
  set (n := Z.to_nat (Z.min chunk data_size)).
  pose proof (firstn_le_length n buffer) as Hn.
  pose proof size_t_modulus as Hmod.
  assert (Hle : size_t (Z.of_nat (length (firstn n buffer)))
                <= Z.of_nat (length (firstn n buffer))).
  { unfold size_t. apply Z.mod_le; lia. }
  lia.
Qed.

Lemma decode_loop_call_count {C : Type}
    (receive : ExpansionFrameReceiveCallback C) :
  receive_within_capacity receive ->
  forall (fuel : nat) (frame : ExpansionFrame) (context : C)
         (total_size : Z),
    0 <= total_size <= 257 ->
    Z.of_nat
      (length (dr_calls (decode_loop fuel receive frame context total_size)))
    <= 257 - total_size.
Proof.
  intros Hcontract.
  induction fuel as [| fuel IH]; intros frame context total_size Ht;
    [cbn [orb decode_loop dr_calls length]; lia |].
  cbn [decode_loop].
  destruct (Z.eqb_spec
              (expansion_frame_get_remaining_size frame total_size) 0)
    as [H0 | H0]; [cbn [orb decode_loop dr_calls length]; lia |].
  destruct (Z.eqb_spec
              (expansion_frame_get_remaining_size frame total_size)
              SIZE_MAX) as [Hm | Hm];
    [cbn [orb decode_loop dr_calls length]; lia |].
  cbn [orb].
  pose proof (remaining_size_request_range frame total_size H0 Hm) as Hreq.
  pose proof (load8_range frame 1) as Hs. fold (content_data_size frame) in Hs.
  pose proof (decode_request_bound frame total_size (proj1 Ht) H0 Hm) as Hend.
  unfold_sizes.
  pose proof (decode_total_size_step receive frame context total_size
                Hcontract Ht H0 Hm) as Hstep. cbv zeta in Hstep.
  destruct (Z.eqb_spec
              (size_t
                 (rr_count
                    (receive frame total_size
                       (expansion_frame_get_remaining_size frame total_size)
                       context))) 0) as [Hz | Hz].
  - cbn [dr_calls length]. lia.
  - specialize (Hstep Hz). destruct Hstep as (Heq & Hlt & Hle).
    cbn [dr_calls log_receive length]. rewrite Heq.
    set (r := receive frame total_size
                (expansion_frame_get_remaining_size frame total_size)
                context) in *.
    pose proof (IH (rr_frame r) (rr_context r)
                  (total_size + size_t (rr_count r))) as Hrest.
    lia.
Qed.

(** X8: with a receive callback that never reports more than the capacity
    it was given, decode invokes it at most 257 times, however long the
    loop is run. *)
Theorem decode_call_count {C : Type}
    (receive : ExpansionFrameReceiveCallback C) (fuel : nat)
    (frame : ExpansionFrame) (context : C) :
  receive_within_capacity receive ->
  (length (dr_calls (expansion_frame_decode fuel frame receive context))
   <= 257)%nat.
Proof.
  intros Hcontract. unfold expansion_frame_decode.
  pose proof (decode_loop_call_count receive Hcontract fuel frame context 0)
    as Hcount.
  lia.
Qed.



Lemma decode_loop_over_reporting (frame : ExpansionFrame) :
  known_frame_type (header_type frame) = true ->
  header_type frame <> ExpansionFrameTypeHeartbeat ->
  forall (fuel : nat) (total_size : Z),
    total_size = 0 \/ total_size = 1 ->
    let r := decode_loop fuel over_reporting_receive frame tt total_size in
    dr_return r = None /\ length (dr_calls r) = fuel.
Proof.
  intros Hk Hh. apply known_frame_type_cases in Hk.
  pose proof SIZE_MAX_large as Hmax. pose proof size_t_modulus as Hmod.
  induction fuel as [| fuel IH]; intros total_size Ht; cbv zeta;
    [split; reflexivity |].
  assert (Hrem :
    1 <= expansion_frame_get_remaining_size frame total_size <= 4).
  { destruct Ht as [-> | ->].
    - rewrite remaining_size_header by lia. lia.
    - rewrite remaining_size_cascade by lia. unfold_sizes. cbv zeta.
      split_tests; lia. }
  rewrite decode_loop_receive by lia.
  change (over_reporting_receive frame total_size
            (expansion_frame_get_remaining_size frame total_size) tt)
    with (mkReceiveResult frame tt (if total_size =? 0 then 1 else SIZE_MAX)).
  cbn [rr_count rr_frame rr_context].
  assert (Hnext :
    size_t (if total_size =? 0 then 1 else SIZE_MAX) <> 0
    /\ (size_t (total_size + size_t (if total_size =? 0 then 1 else SIZE_MAX))
        = 0
        \/ size_t (total_size
                   + size_t (if total_size =? 0 then 1 else SIZE_MAX)) = 1)).
  { destruct Ht as [-> | ->]; cbn [Z.eqb Pos.eqb].
    - rewrite (size_t_small 1) by lia. rewrite (size_t_small (0 + 1)) by lia.
      lia.
    - assert (Hsm : size_t SIZE_MAX = SIZE_MAX).
      { unfold size_t, SIZE_MAX. apply Z.mod_small. lia. }
      rewrite Hsm. split; [lia |]. left.
      unfold size_t, SIZE_MAX.
      replace (1 + (2 ^ size_bits - 1)) with (2 ^ size_bits) by lia.
      apply Z_mod_same_full. }
  destruct Hnext as [Hn Hnext].
  destruct (Z.eqb_spec (size_t (if total_size =? 0 then 1 else SIZE_MAX)) 0)
    as [Hz | _]; [contradiction |].
  specialize (IH _ Hnext). cbv zeta in IH. destruct IH as [Hret Hlen].
  unfold log_receive. cbn [dr_return dr_calls length].
  split; [exact Hret | f_equal; exact Hlen].
Qed.

(** X10: the loop trusts the count the callback reports.  With a callback
    that reports [SIZE_MAX] bytes after the header, the count of received
    bytes wraps to 0 and decode never returns: for a frame object holding
    any known tag but the heartbeat, every run is still in the loop after
    as many invocations as it was given iterations. *)
Theorem decode_over_reporting_never_returns (frame : ExpansionFrame)
    (fuel : nat) :
  known_frame_type (header_type frame) = true ->
  header_type frame <> ExpansionFrameTypeHeartbeat ->
  let r := expansion_frame_decode fuel frame over_reporting_receive tt in
  dr_return r = None /\ length (dr_calls r) = fuel.
Proof.
  intros Hk Hh. unfold expansion_frame_decode.
  apply decode_loop_over_reporting; [exact Hk | exact Hh | left; reflexivity].
Qed.

(** ** Decoding from a byte stream *)

Lemma firstn_app_within {A : Type} (n : nat) (l1 l2 : list A) :
  (n <= length l1)%nat -> firstn n (l1 ++ l2) = firstn n l1.
Proof.
  intros Hn. rewrite firstn_app.
  replace (n - length l1)%nat with 0%nat by lia.
  now rewrite firstn_0, app_nil_r.
Qed.

Lemma skipn_app_within {A : Type} (n : nat) (l1 l2 : list A) :
  (n <= length l1)%nat -> skipn n (l1 ++ l2) = skipn n l1 ++ l2.
Proof.
  intros Hn. rewrite skipn_app.
  replace (n - length l1)%nat with 0%nat by lia.
  now rewrite skipn_0.
Qed.

Lemma store_bytes_suffix (frame : ExpansionFrame) (offset k : nat)
    (bytes : list byte) :
  (offset + length bytes <= k)%nat -> (offset <= length frame)%nat ->
  skipn k (store_bytes frame offset bytes) = skipn k frame.
Proof.
  intros Hk Hoff. unfold store_bytes.
  rewrite skipn_app, length_firstn, Nat.min_l by exact Hoff.
  rewrite skipn_all2 by (rewrite length_firstn; lia). cbn [app].
  rewrite skipn_app, skipn_all2 by lia. cbn [app].
  rewrite skipn_skipn. f_equal. lia.
Qed.

(** The receive loop reading an encoded frame from the front of a
    stream: it completes, leaves what follows the frame in the stream,
    and keeps every request within the encoded size. *)
Lemma decode_loop_stream (chunk : Z) (frame : ExpansionFrame)
    (rest : list byte) :
  well_formed_frame frame -> 1 <= chunk ->
  forall (fuel : nat) (total_size : Z) (out : ExpansionFrame),
    let encoded := expansion_frame_get_encoded_size frame in
    0 <= total_size <= encoded ->
    length out = length frame ->
    firstn (Z.to_nat total_size) out = firstn (Z.to_nat total_size) frame ->
    encoded - total_size < Z.of_nat fuel ->
    let r := decode_loop fuel (buffer_receive chunk) out
               (skipn (Z.to_nat total_size) (firstn (Z.to_nat encoded) frame)
                  ++ rest)
               total_size in
    dr_return r = Some true
    /\ firstn (Z.to_nat encoded) (dr_frame r)
       = firstn (Z.to_nat encoded) frame
    /\ length (dr_frame r) = length frame
    /\ dr_context r = rest
    /\ Forall (fun call =>
                 0 <= rc_offset call
                 /\ rc_offset call + rc_capacity call <= encoded)
         (dr_calls r)
    /\ skipn (Z.to_nat encoded) (dr_frame r) = skipn (Z.to_nat encoded) out.
Proof.
  intros Hwf Hchunk. pose proof (well_formed_encoded_size frame Hwf) as Henc.
  destruct Hwf as (Hlen & Hk & _). pose proof SIZE_MAX_large as Hmax.
  unfold sizeof_ExpansionFrame, sizeof_ExpansionFrameData,
    sizeof_ExpansionFrameData_size, sizeof_ExpansionFrameHeader,
    EXPANSION_MAX_DATA_SIZE in Hlen, Henc.
  set (encoded := expansion_frame_get_encoded_size frame) in *.
  induction fuel as [| fuel IH]; intros total_size out;
    cbv zeta; intros Htot Hout Hpre Hfuel; [lia |].
  assert (Hagree :
    expansion_frame_get_remaining_size out total_size
    = expansion_frame_get_remaining_size frame total_size).
  { apply remaining_size_agree; intros Hr.
    - unfold header_type. apply (load8_prefix _ _ _ _ Hpre). lia.
    - unfold content_data_size. apply (load8_prefix _ _ _ _ Hpre). lia. }
  pose proof (remaining_size_progress frame total_size Hk) as Hprog.
  fold encoded in Hprog. specialize (Hprog Htot).
  destruct Hprog as [Hupper Hprog].
  assert (Hstream :
    length (skipn (Z.to_nat total_size) (firstn (Z.to_nat encoded) frame))
    = Z.to_nat (encoded - total_size)).
  { rewrite length_skipn, length_firstn. lia. }
  destruct (Z.eq_dec total_size encoded) as [Hdone | Hmore].
  - (* the frame is complete *)
    assert (Hzero : expansion_frame_get_remaining_size frame total_size = 0)
      by lia.
    rewrite decode_loop_break; rewrite Hagree, Hzero.
    + cbn. subst total_size. repeat split; try assumption; try constructor.
      rewrite skipn_all2 by (rewrite length_firstn; lia). reflexivity.
    + left; reflexivity.
  - (* one more invocation of the source *)
    specialize (Hprog ltac:(lia)).
    rewrite decode_loop_receive by (rewrite Hagree; lia).
    rewrite Hagree.
    set (remaining := expansion_frame_get_remaining_size frame total_size)
      in *.
    set (n := Z.to_nat (Z.min chunk remaining)).
    assert (Hn : (1 <= n)%nat /\ Z.of_nat n <= remaining) by lia.
    set (encoding := skipn (Z.to_nat total_size)
                       (firstn (Z.to_nat encoded) frame)) in *.
    assert (Hbuf : firstn n (encoding ++ rest)
                   = firstn n (skipn (Z.to_nat total_size) frame)).
    { rewrite firstn_app_within by lia. unfold encoding.
      rewrite skipn_firstn_comm, firstn_firstn. f_equal. lia. }
    assert (Hbytes : length (firstn n (encoding ++ rest)) = n).
    { rewrite Hbuf, length_firstn, length_skipn. lia. }
    unfold buffer_receive. fold n.
    cbn [rr_count rr_frame rr_context].
    rewrite Hbytes.
    rewrite (size_t_small (Z.of_nat n)) by lia.
    rewrite (size_t_small (total_size + Z.of_nat n)) by lia.
    destruct (Z.eqb_spec (Z.of_nat n) 0) as [Hz | _]; [lia |].
    unfold log_receive. cbn [dr_return dr_frame dr_context dr_calls].
    replace (skipn n (encoding ++ rest))
      with (skipn (Z.to_nat (total_size + Z.of_nat n))
              (firstn (Z.to_nat encoded) frame) ++ rest).
    + destruct (IH (total_size + Z.of_nat n)
                  (store_bytes out (Z.to_nat total_size)
                     (firstn n (encoding ++ rest))))
        as (Hret & Hfin & Hlength & Hctx & Hcalls & Hkeep).
      * lia.
      * rewrite store_bytes_length; [exact Hout |]. rewrite Hbytes. lia.
      * replace (Z.to_nat (total_size + Z.of_nat n))
          with (Z.to_nat total_size
                + length (firstn n (encoding ++ rest)))%nat
          by (rewrite Hbytes; lia).
        rewrite store_bytes_prefix by lia.
        rewrite Hbytes, Hpre, Hbuf. apply firstn_extend.
      * lia.
      * repeat split; try assumption.
        -- constructor; [cbn [rc_offset rc_capacity]; lia | exact Hcalls].
        -- etransitivity; [exact Hkeep |].
           apply store_bytes_suffix; rewrite ?Hbytes; lia.
    + rewrite skipn_app_within by lia. unfold encoding.
      rewrite skipn_skipn. f_equal. f_equal. lia.
Qed.


(** X16: decode writes the encoded bytes and nothing else.  After a
    well-formed frame has been decoded from the front of a stream, the
    frame object holds the encoding of the frame followed by whatever it
    held before beyond the encoded size: bytes of an earlier, longer
    frame stay in the object. *)
Theorem decode_keeps_bytes_beyond_frame (frame out : ExpansionFrame)
    (rest : list byte) (chunk : Z) (fuel : nat) :
  well_formed_frame frame ->
  Z.of_nat (length out) = sizeof_ExpansionFrame ->
  1 <= chunk ->
  sizeof_ExpansionFrame < Z.of_nat fuel ->
  let encoded := Z.to_nat (expansion_frame_get_encoded_size frame) in
  dr_frame (expansion_frame_decode fuel out (buffer_receive chunk)
              (firstn encoded frame ++ rest))
  = firstn encoded frame ++ skipn encoded out.
Proof.
  intros Hwf Hout Hchunk Hfuel. cbv zeta.
  pose proof (well_formed_encoded_size frame Hwf) as Henc.
  pose proof Hwf as (Hlen & _).
  destruct (decode_loop_stream chunk frame rest Hwf Hchunk fuel 0 out)
    as (_ & Hpre & _ & _ & _ & Hkeep);
    try lia; try reflexivity.
  cbn [Z.to_nat skipn] in Hpre, Hkeep.
  unfold expansion_frame_decode.
  set (result := dr_frame _) in *.
  rewrite <- Hpre, <- Hkeep. symmetry. apply firstn_skipn.
Qed.

Lemma encode_buffer_send (frame : ExpansionFrame) (buffer : list byte) :
  well_formed_frame frame ->
  let e := expansion_frame_encode frame buffer_send buffer in
  er_ok e = true
  /\ er_context e
     = buffer ++ firstn (Z.to_nat (expansion_frame_get_encoded_size frame))
                   frame.
Proof.
  intros Hwf. pose proof (well_formed_encoded_size frame Hwf) as Henc.
  unfold sizeof_ExpansionFrame, sizeof_ExpansionFrameData,
    sizeof_ExpansionFrameData_size, sizeof_ExpansionFrameHeader,
    EXPANSION_MAX_DATA_SIZE in Henc.
  cbv zeta. unfold expansion_frame_encode, buffer_send.
  destruct (Z.eqb_spec (expansion_frame_get_encoded_size frame) 0)
    as [H0 | _]; [lia |].
  cbn [negb er_ok er_context].
  rewrite size_t_small by lia. rewrite Z.eqb_refl. split; reflexivity.
Qed.

(** X12: frames travel back to back.  Two well-formed frames encoded one
    after the other into an empty buffer are decoded from it one after
    the other: the first decode yields the first frame and stops at the
    boundary, the second yields the second frame and empties the
    buffer. *)
Theorem encode_decode_sequence (first second out1 out2 : ExpansionFrame)
    (chunk1 chunk2 : Z) (fuel : nat) :
  well_formed_frame first -> well_formed_frame second ->
  Z.of_nat (length out1) = sizeof_ExpansionFrame ->
  Z.of_nat (length out2) = sizeof_ExpansionFrame ->
  1 <= chunk1 -> 1 <= chunk2 ->
  sizeof_ExpansionFrame < Z.of_nat fuel ->
  let e1 := expansion_frame_encode first buffer_send [] in
  let e2 := expansion_frame_encode second buffer_send (er_context e1) in
  let r1 := expansion_frame_decode fuel out1 (buffer_receive chunk1)
              (er_context e2) in
  let r2 := expansion_frame_decode fuel out2 (buffer_receive chunk2)
              (dr_context r1) in
  er_ok e1 = true /\ er_ok e2 = true
  /\ dr_return r1 = Some true
  /\ frame_value (dr_frame r1) = frame_value first
  /\ dr_return r2 = Some true
  /\ frame_value (dr_frame r2) = frame_value second
  /\ dr_context r2 = [].
Proof.
  intros Hwf1 Hwf2 Hout1 Hout2 Hchunk1 Hchunk2 Hfuel. cbv zeta.
  destruct (encode_buffer_send first [] Hwf1) as [Hok1 Hctx1].
  cbv zeta in Hok1, Hctx1. rewrite Hctx1. cbn [app].
  destruct (encode_buffer_send second
              (firstn (Z.to_nat (expansion_frame_get_encoded_size first))
                 first) Hwf2) as [Hok2 Hctx2].
  cbv zeta in Hok2, Hctx2. rewrite Hctx2.
  pose proof (well_formed_encoded_size first Hwf1) as Henc1.
  pose proof (well_formed_encoded_size second Hwf2) as Henc2.
  pose proof Hwf1 as (Hlen1 & Hk1 & _). pose proof Hwf2 as (Hlen2 & Hk2 & _).
  unfold expansion_frame_decode.
  destruct (decode_loop_stream chunk1 first
              (firstn (Z.to_nat (expansion_frame_get_encoded_size second))
                 second) Hwf1 Hchunk1 fuel 0 out1)
    as (Hret1 & Hpre1 & _ & Hrest1 & _ & _); try lia; try reflexivity.
  cbn [Z.to_nat skipn] in Hret1, Hpre1, Hrest1.
  rewrite Hrest1.
  destruct (decode_loop_stream chunk2 second [] Hwf2 Hchunk2 fuel 0 out2)
    as (Hret2 & Hpre2 & _ & Hrest2 & _ & _); try lia; try reflexivity.
  cbn [Z.to_nat skipn] in Hret2, Hpre2, Hrest2.
  rewrite app_nil_r in Hret2, Hpre2, Hrest2.
  repeat split; try assumption.
  - apply frame_value_prefix; assumption.
  - apply frame_value_prefix; assumption.
Qed.

Lemma store_bytes_nil (frame : ExpansionFrame) (offset : nat) :
  store_bytes frame offset [] = frame.
Proof.
  unfold store_bytes. cbn [app length]. rewrite Nat.add_0_r.
  apply firstn_skipn.
Qed.

(** The receive loop on a stream that ends inside a frame. *)
Lemma decode_loop_truncated (chunk : Z) (frame : ExpansionFrame) (k : Z) :
  well_formed_frame frame -> 1 <= chunk ->
  0 <= k < expansion_frame_get_encoded_size frame ->
  forall (fuel : nat) (total_size : Z) (out : ExpansionFrame),
    0 <= total_size <= k ->
    length out = length frame ->
    firstn (Z.to_nat total_size) out = firstn (Z.to_nat total_size) frame ->
    k - total_size < Z.of_nat fuel ->
    let r := decode_loop fuel (buffer_receive chunk) out
               (skipn (Z.to_nat total_size) (firstn (Z.to_nat k) frame))
               total_size in
    dr_return r = Some false
    /\ dr_context r = []
    /\ firstn (Z.to_nat k) (dr_frame r) = firstn (Z.to_nat k) frame.
Proof.
  intros Hwf Hchunk Hk. pose proof (well_formed_encoded_size frame Hwf) as Henc.
  destruct Hwf as (Hlen & Hknown & _). pose proof SIZE_MAX_large as Hmax.
  unfold sizeof_ExpansionFrame, sizeof_ExpansionFrameData,
    sizeof_ExpansionFrameData_size, sizeof_ExpansionFrameHeader,
    EXPANSION_MAX_DATA_SIZE in Hlen, Henc.
  set (encoded := expansion_frame_get_encoded_size frame) in *.
  induction fuel as [| fuel IH]; intros total_size out;
    cbv zeta; intros Htot Hout Hpre Hfuel; [lia |].
  assert (Hagree :
    expansion_frame_get_remaining_size out total_size
    = expansion_frame_get_remaining_size frame total_size).
  { apply remaining_size_agree; intros Hr.
    - unfold header_type. apply (load8_prefix _ _ _ _ Hpre). lia.
    - unfold content_data_size. apply (load8_prefix _ _ _ _ Hpre). lia. }
  pose proof (remaining_size_progress frame total_size Hknown) as Hprog.
  fold encoded in Hprog. specialize (Hprog ltac:(lia)).
  destruct Hprog as [Hupper Hprog]. specialize (Hprog ltac:(lia)).
  rewrite decode_loop_receive by (rewrite Hagree; lia).
  rewrite Hagree.
  set (remaining := expansion_frame_get_remaining_size frame total_size) in *.
  set (n0 := Z.to_nat (Z.min chunk remaining)).
  set (stream := skipn (Z.to_nat total_size) (firstn (Z.to_nat k) frame)).
  assert (Hstream : length stream = Z.to_nat (k - total_size)).
  { unfold stream. rewrite length_skipn, length_firstn. lia. }
  set (n := Z.to_nat (Z.min (Z.min chunk remaining) (k - total_size))).
  assert (Hbytes : firstn n0 stream
                   = firstn n (skipn (Z.to_nat total_size) frame)).
  { unfold stream. rewrite skipn_firstn_comm, firstn_firstn.
    f_equal. lia. }
  assert (Hcount : length (firstn n0 stream) = n).
  { rewrite length_firstn, Hstream. lia. }
  assert (Hleft : skipn n0 stream
                  = skipn (Z.to_nat (total_size + Z.of_nat n))
                      (firstn (Z.to_nat k) frame)).
  { unfold stream. rewrite skipn_skipn.
    destruct (Z.le_gt_cases (Z.min chunk remaining) (k - total_size))
      as [Hfit | Hshort].
    - f_equal. lia.
    - rewrite !skipn_all2; [reflexivity | |]; rewrite length_firstn; lia. }
  unfold buffer_receive. fold n0. fold stream.
  cbn [rr_count rr_frame rr_context]. rewrite Hcount.
  rewrite (size_t_small (Z.of_nat n)) by lia.
  destruct (Z.eqb_spec (Z.of_nat n) 0) as [Hz | Hz].
  - (* the stream has run dry *)
    assert (Hend : total_size = k) by lia.
    assert (Hnil : firstn n0 stream = []).
    { apply length_zero_iff_nil. lia. }
    cbn [dr_return dr_context dr_frame]. rewrite Hnil, store_bytes_nil.
    subst total_size. repeat split; [| exact Hpre].
    rewrite Hleft. apply skipn_all2. rewrite length_firstn. lia.
  - rewrite (size_t_small (total_size + Z.of_nat n)) by lia.
    unfold log_receive. cbn [dr_return dr_frame dr_context].
    rewrite Hleft. apply IH.
    + lia.
    + rewrite store_bytes_length; [exact Hout |]. rewrite Hcount. lia.
    + replace (Z.to_nat (total_size + Z.of_nat n))
        with (Z.to_nat total_size + length (firstn n0 stream))%nat
        by (rewrite Hcount; lia).
      rewrite store_bytes_prefix by lia.
      rewrite Hpre, Hbytes.
      replace (length (firstn n (skipn (Z.to_nat total_size) frame)))
        with n by (rewrite <- Hbytes; symmetry; exact Hcount).
      apply firstn_extend.
    + lia.
Qed.

(** X13: a stream that ends inside the encoding of a well-formed frame
    makes decode return false: it reads the stream to its end, keeps
    the bytes it got at the front of the frame object, and reports the
    failure when the source delivers nothing more. *)
Theorem decode_truncated_stream (frame out : ExpansionFrame) (k chunk : Z)
    (fuel : nat) :
  well_formed_frame frame ->
  Z.of_nat (length out) = sizeof_ExpansionFrame ->
  1 <= chunk ->
  0 <= k < expansion_frame_get_encoded_size frame ->
  sizeof_ExpansionFrame < Z.of_nat fuel ->
  let r := expansion_frame_decode fuel out (buffer_receive chunk)
             (firstn (Z.to_nat k) frame) in
  dr_return r = Some false
  /\ dr_context r = []
  /\ firstn (Z.to_nat k) (dr_frame r) = firstn (Z.to_nat k) frame.
Proof.
  intros Hwf Hout Hchunk Hk Hfuel. cbv zeta.
  pose proof (well_formed_encoded_size frame Hwf) as Henc.
  pose proof Hwf as (Hlen & _).
  unfold expansion_frame_decode.
  apply (decode_loop_truncated chunk frame k Hwf Hchunk Hk fuel 0 out);
    try lia; reflexivity.
Qed.

(** X14: a stream whose first byte is not a known tag makes decode
    return false after a single invocation; only that byte is taken from
    the stream and only the tag byte of the frame object is written. *)
Theorem decode_unknown_tag_stream (tag : byte) (rest : list byte)
    (out : ExpansionFrame) (chunk : Z) (fuel : nat) :
  known_frame_type (uint8 tag) = false ->
  1 <= chunk ->
  (2 <= fuel)%nat ->
  expansion_frame_decode fuel out (buffer_receive chunk) (tag :: rest)
  = mkDecodeResult (Some false) (tag :: skipn 1 out) rest
      [mkReceiveCall out 0 sizeof_ExpansionFrameHeader].
Proof.
  intros Hk Hchunk Hfuel. unfold expansion_frame_decode.
  destruct fuel as [| [| fuel]]; try lia.
  pose proof SIZE_MAX_large as Hmax.
  assert (Hcall : buffer_receive chunk out 0 1 (tag :: rest)
                  = mkReceiveResult (tag :: skipn 1 out) rest 1).
  { unfold buffer_receive. rewrite Z.min_r by lia. reflexivity. }
  assert (Hunknown :
    expansion_frame_get_remaining_size (tag :: skipn 1 out) 1 = SIZE_MAX).
  { apply remaining_size_unknown; [exact Hk | lia]. }
  rewrite decode_loop_receive; rewrite remaining_size_header by lia;
    try lia.
  rewrite Hcall. cbn [rr_count rr_frame rr_context].
  rewrite (size_t_small 1) by lia. rewrite (size_t_small (0 + 1)) by lia.
  cbn [Z.eqb Z.add Pos.eqb].
  rewrite decode_loop_break by (right; exact Hunknown).
  rewrite Hunknown. unfold log_receive.
  cbn [dr_return dr_frame dr_context dr_calls].
  destruct (Z.eqb_spec SIZE_MAX 0); [lia | reflexivity].
Qed.









End Codec.

(** * The codec on a 32-bit [size_t] *)

Lemma well_formed_data_frame_64 : well_formed_frame data_frame_64.
Proof.
  split; [reflexivity | split; [reflexivity |]].
  intros _. vm_compute. discriminate.
Defined.

Lemma encode_decode_round_trip_witness :
  let e := expansion_frame_encode 32 data_frame_64 buffer_send [] in
  let r := expansion_frame_decode 32 100 zero_frame (buffer_receive 1)
             (er_context e) in
  er_ok e = true
  /\ er_context e = firstn 66 data_frame_64
  /\ dr_return r = Some true
  /\ frame_value data_frame_64 <> None
  /\ frame_value (dr_frame r) = frame_value data_frame_64
  /\ firstn 66 (dr_frame r) = firstn 66 data_frame_64.
Proof.
  apply (encode_decode_round_trip 32); try lia.
  - exact well_formed_data_frame_64.
  - reflexivity.
  - vm_compute. reflexivity.
Defined.

(** C2 as stated fails: a source that announces a data frame of 200
    bytes is asked for 200 bytes at offset 2 of the 66-byte frame. *)
Lemma decode_request_outside_frame :
  ~ Forall request_in_frame
      (dr_calls (expansion_frame_decode 32 3 zero_frame (buffer_receive 1)
                   oversized_stream)).
Proof.
  intros Hall.
  apply Forall_inv_tail, Forall_inv_tail, Forall_inv in Hall.
  destruct Hall as [_ Hend]. vm_compute in Hend. apply Hend. reflexivity.
Qed.

Lemma decode_requests_witness :
  Forall
    (fun call =>
       request_in_frame call
       \/ (header_type (rc_frame call) = ExpansionFrameTypeData
           /\ 2 <= rc_offset call
           /\ EXPANSION_MAX_DATA_SIZE < content_data_size (rc_frame call)
           /\ rc_offset call + rc_capacity call
              = 2 + content_data_size (rc_frame call)))
    (dr_calls (expansion_frame_decode 32 3 zero_frame (buffer_receive 1)
                 oversized_stream)).
Proof.
  apply (decode_requests 32). lia.
Defined.

Lemma remaining_size_by_variant_witness :
  expansion_frame_get_remaining_size 32 zero_frame 0 = 1
  /\ expansion_frame_get_remaining_size 32 data_frame_10 5
     = Z.max (content_requirement Data data_frame_10 4 - 4) 0.
Proof.
  split.
  - apply (remaining_size_by_variant 32); [lia | reflexivity].
  - apply (proj2 (remaining_size_by_variant 32 ltac:(lia) data_frame_10 5));
      [unfold sizeof_ExpansionFrameHeader; lia | reflexivity].
Defined.

Lemma encoded_size_by_variant_witness :
  expansion_frame_get_encoded_size 32 data_frame_64
  = encoded_size_spec data_frame_64.
Proof.
  apply (encoded_size_by_variant 32). lia.
Defined.

(** C5 as stated fails in two places: a data frame that declares 10 bytes
    needs 1 byte at 1 received and 10 bytes at 2 received; a baud rate
    frame needs 1 byte at 0 received and 4 bytes at 1 received. *)
Lemma remaining_size_not_monotone :
  ~ (forall m n, m <= n ->
       expansion_frame_get_remaining_size 32 data_frame_10 n
       <= expansion_frame_get_remaining_size 32 data_frame_10 m)
  /\ ~ (forall m n, m <= n ->
          expansion_frame_get_remaining_size 32 baud_rate_frame n
          <= expansion_frame_get_remaining_size 32 baud_rate_frame m).
Proof.
  split; intros Hmono.
  - specialize (Hmono 1 2 ltac:(lia)). vm_compute in Hmono.
    apply Hmono. reflexivity.
  - specialize (Hmono 0 1 ltac:(lia)). vm_compute in Hmono.
    apply Hmono. reflexivity.
Qed.

Lemma remaining_size_monotone_witness :
  expansion_frame_get_remaining_size 32 data_frame_10 7
  <= expansion_frame_get_remaining_size 32 data_frame_10 2.
Proof.
  apply (remaining_size_monotone 32 ltac:(lia) data_frame_10 2 7);
    [reflexivity | lia |].
  split; intros (_ & Hm & _); lia.
Defined.

Lemma remaining_size_zero_at_encoded_size_witness :
  expansion_frame_get_remaining_size 32 baud_rate_frame
    (expansion_frame_get_encoded_size 32 baud_rate_frame) = 0.
Proof.
  apply (remaining_size_zero_at_encoded_size 32); [lia | reflexivity].
Defined.

Lemma unknown_tag_aborts_witness :
  expansion_frame_get_remaining_size 32 reserved_frame 1 = SIZE_MAX 32
  /\ (let r := expansion_frame_decode 32 2 zero_frame (buffer_receive 1)
                 [x06; x00] in
      dr_return r = Some false
      /\ dr_calls r = [mkReceiveCall zero_frame 0 1]).
Proof.
  destruct (unknown_tag_aborts 32 ltac:(lia) reserved_frame eq_refl)
    as [Hsize Hdecode].
  split.
  - apply Hsize. lia.
  - apply Hdecode; [reflexivity | lia].
Defined.

Lemma decode_stalled_source_witness :
  let r := expansion_frame_decode 32 1 zero_frame stalled_receive tt in
  dr_return r = Some false
  /\ dr_calls r = [mkReceiveCall zero_frame 0 1].
Proof.
  apply (decode_stalled_source 32); [lia | reflexivity | lia].
Defined.

Lemma encode_single_send_witness :
  (let r := expansion_frame_encode 32 reserved_frame short_send tt in
   er_ok r = false /\ er_calls r = [] /\ er_context r = tt)
  /\ (let r := expansion_frame_encode 32 status_frame short_send tt in
      er_calls r = [mkSendCall status_frame 2]
      /\ er_context r = tt
      /\ (er_ok r = true <-> size_t 32 1 = 2)).
Proof.
  split.
  - apply (proj1 (encode_single_send 32 reserved_frame short_send tt)).
    reflexivity.
  - apply (proj2 (encode_single_send 32 status_frame short_send tt)).
    discriminate.
Defined.

Lemma decode_true_known_tag_witness :
  known_frame_type
    (header_type
       (dr_frame (expansion_frame_decode 32 10 zero_frame (buffer_receive 4)
                    [x02; x01]))) = true.
Proof.
  apply (decode_true_known_tag 32); [lia | reflexivity].
Defined.

(** * More of the codec on a 32-bit [size_t] *)

Lemma well_formed_status_frame : well_formed_frame status_frame.
Proof.
  split; [reflexivity | split; [reflexivity |]].
  intros Htag. vm_compute in Htag. discriminate Htag.
Defined.

Lemma well_formed_data_frame_10 : well_formed_frame data_frame_10.
Proof.
  split; [reflexivity | split; [reflexivity |]].
  intros _. vm_compute. discriminate.
Defined.

Lemma decode_returns_witness :
  dr_return
    (expansion_frame_decode 32 259 zero_frame (buffer_receive 1)
       (x05 :: xff :: repeat x00 255)) <> None.
Proof.
  apply (decode_returns 32); [lia | | lia].
  apply (buffer_receive_within_capacity 32). lia.
Defined.

Lemma encoded_size_zero_iff_unknown_witness :
  expansion_frame_get_encoded_size 32 reserved_frame = 0
  /\ 1 <= expansion_frame_get_encoded_size 32 data_frame_64 <= 257.
Proof.
  split.
  - apply (proj1 (encoded_size_zero_iff_unknown 32 ltac:(lia) reserved_frame)).
    reflexivity.
  - apply (proj2 (encoded_size_zero_iff_unknown 32 ltac:(lia) data_frame_64)).
    reflexivity.
Defined.

Lemma remaining_size_zero_iff_complete_witness :
  expansion_frame_get_remaining_size 32 data_frame_10 40 = 0.
Proof.
  apply (remaining_size_zero_iff_complete 32 ltac:(lia) data_frame_10 40).
  split; [reflexivity | vm_compute; discriminate].
Defined.

Lemma remaining_size_sentinel_iff_unknown_witness :
  expansion_frame_get_remaining_size 32 reserved_frame 3 = SIZE_MAX 32
  /\ 0 <= expansion_frame_get_remaining_size 32 data_frame_64 2 <= 255.
Proof.
  split.
  - apply (proj1 (remaining_size_sentinel_iff_unknown 32 ltac:(lia)
                    reserved_frame 3)).
    split; [lia | reflexivity].
  - apply (proj2 (remaining_size_sentinel_iff_unknown 32 ltac:(lia)
                    data_frame_64 2)).
    vm_compute. discriminate.
Defined.

Lemma remaining_size_reaches_encoded_size_witness :
  7 + expansion_frame_get_remaining_size 32 data_frame_64 7
  = expansion_frame_get_encoded_size 32 data_frame_64.
Proof.
  apply (remaining_size_reaches_encoded_size 32); try lia.
  - reflexivity.
  - vm_compute. split; discriminate.
Defined.

Lemma encode_send_within_frame_witness :
  Forall
    (fun call =>
       sc_data call = data_frame_64
       /\ 1 <= sc_data_size call <= 257
       /\ (sc_data_size call <= sizeof_ExpansionFrame
           <-> ~ (header_type data_frame_64 = ExpansionFrameTypeData
                  /\ EXPANSION_MAX_DATA_SIZE
                     < content_data_size data_frame_64)))
    (er_calls (expansion_frame_encode 32 data_frame_64 buffer_send [])).
Proof.
  apply (encode_send_within_frame 32). lia.
Defined.

Lemma decode_request_sizes_witness :
  Forall
    (fun call =>
       rc_capacity call
       = expansion_frame_get_remaining_size 32 (rc_frame call)
           (rc_offset call)
       /\ 1 <= rc_capacity call <= 255
       /\ 0 <= rc_offset call <= SIZE_MAX 32)
    (dr_calls (expansion_frame_decode 32 5 zero_frame (buffer_receive 2)
                 oversized_stream)).
Proof.
  apply (decode_request_sizes 32). lia.
Defined.

Lemma decode_call_count_witness :
  (length
     (dr_calls
        (expansion_frame_decode 32 300 zero_frame (buffer_receive 1)
           (x05 :: xff :: repeat x00 255))) <= 257)%nat.
Proof.
  apply (decode_call_count 32); [lia |].
  apply (buffer_receive_within_capacity 32). lia.
Defined.

(** The bound of 257 invocations is reached: a data frame that declares
    255 bytes, delivered one byte per invocation. *)
Lemma decode_call_count_attained :
  length
    (dr_calls
       (expansion_frame_decode 32 300 zero_frame (buffer_receive 1)
          (x05 :: xff :: repeat x00 255))) = 257%nat.
Proof. vm_compute. reflexivity. Qed.


Lemma decode_over_reporting_never_returns_witness :
  let r := expansion_frame_decode 32 1000 status_frame
             (over_reporting_receive 32) tt in
  dr_return r = None /\ length (dr_calls r) = 1000%nat.
Proof.
  apply (decode_over_reporting_never_returns 32); [lia | reflexivity |].
  vm_compute. discriminate.
Defined.


Lemma decode_keeps_bytes_beyond_frame_witness :
  dr_frame (expansion_frame_decode 32 100 data_frame_64 (buffer_receive 5)
              (firstn 2 status_frame ++ [x01]))
  = firstn 2 status_frame ++ skipn 2 data_frame_64.
Proof.
  apply (decode_keeps_bytes_beyond_frame 32 ltac:(lia) status_frame
           data_frame_64 [x01] 5 100).
  - exact well_formed_status_frame.
  - reflexivity.
  - lia.
  - vm_compute. reflexivity.
Defined.

Lemma encode_decode_sequence_witness :
  let e1 := expansion_frame_encode 32 status_frame buffer_send [] in
  let e2 := expansion_frame_encode 32 data_frame_10 buffer_send
              (er_context e1) in
  let r1 := expansion_frame_decode 32 100 zero_frame (buffer_receive 1)
              (er_context e2) in
  let r2 := expansion_frame_decode 32 100 zero_frame (buffer_receive 4)
              (dr_context r1) in
  er_ok e1 = true /\ er_ok e2 = true
  /\ dr_return r1 = Some true
  /\ frame_value (dr_frame r1) = frame_value status_frame
  /\ dr_return r2 = Some true
  /\ frame_value (dr_frame r2) = frame_value data_frame_10
  /\ dr_context r2 = [].
Proof.
  apply (encode_decode_sequence 32); try lia.
  - exact well_formed_status_frame.
  - exact well_formed_data_frame_10.
  - reflexivity.
  - reflexivity.
  - vm_compute. reflexivity.
Defined.

Lemma decode_truncated_stream_witness :
  let r := expansion_frame_decode 32 100 zero_frame (buffer_receive 4)
             (firstn 7 data_frame_10) in
  dr_return r = Some false
  /\ dr_context r = []
  /\ firstn 7 (dr_frame r) = firstn 7 data_frame_10.
Proof.
  apply (decode_truncated_stream 32 ltac:(lia) data_frame_10 zero_frame 7 4
           100).
  - exact well_formed_data_frame_10.
  - reflexivity.
  - lia.
  - vm_compute. split; [discriminate | reflexivity].
  - vm_compute. reflexivity.
Defined.

Lemma decode_unknown_tag_stream_witness :
  expansion_frame_decode 32 2 zero_frame (buffer_receive 8) [x06; x01; x02]
  = mkDecodeResult (Some false) (x06 :: skipn 1 zero_frame) [x01; x02]
      [mkReceiveCall zero_frame 0 sizeof_ExpansionFrameHeader].
Proof.
  apply (decode_unknown_tag_stream 32); [lia | reflexivity | lia | lia].
Defined.

